(** * Service-graph processor: factory and correlation engine

    Shallow embedding of [pkg/traces/servicegraphprocessor/factory.go]
    together with a model of the correlation engine that the factory
    constructs.  The factory is translated from the Go source.  The engine
    behind [newProcessor] (edge store, correlator, expiry sweeper, metrics
    emitter, capacity governor) has no source file next to the factory and
    is modelled from its written specification. *)

From Stdlib Require Import ZArith Ascii String List Lia.
From stdpp Require Import base decidable option list gmap strings.

Local Open Scope Z_scope.

(** ** Go runtime notions used by the factory *)

(** Subset of Go's [time] package: a [Duration] is an int64 count of
    nanoseconds. *)
Module time.
Definition Duration : Type := Z.
Definition Nanosecond : Duration := 1.
Definition Microsecond : Duration := 1000 * Nanosecond.
Definition Millisecond : Duration := 1000 * Microsecond.
Definition Second : Duration := 1000 * Millisecond.
End time.

(** A Go pointer [*T]: either nil or the address of a value.  Nothing in the
    factory writes through a pointer, so the pointee stands for the cell. *)
Definition ptr (T : Type) : Type := option T.
Definition nilptr {T : Type} : ptr T := None.
Definition addr_of {T : Type} (v : T) : ptr T := Some v.

(** The Go [error] interface: nil or an error carrying a message. *)
Definition error : Type := option string.
Definition nil_error : error := None.

(** Result of running a Go function body: it returns, or it panics. *)
Inductive outcome (A : Type) : Type :=
| Returned (a : A)
| Panicked (msg : string).
Arguments Returned {A} a.
Arguments Panicked {A} msg.

Definition returned {A : Type} (o : outcome A) : option A :=
  match o with
  | Returned a => Some a
  | Panicked _ => None
  end.

Definition panics {A : Type} (o : outcome A) : bool :=
  match o with
  | Returned _ => false
  | Panicked _ => true
  end.

(** ** factory.go: constants and configuration types *)

(** TypeStr is the unique identifier for the Prometheus service graph
    exporter. *)
Definition TypeStr : string := "service_graphs".

(** DefaultWait is the default value to wait for an edge to be completed. *)
Definition DefaultWait : time.Duration := time.Second * 10.
(** DefaultMaxItems is the default amount of edges that will be stored in the
    storeMap. *)
Definition DefaultMaxItems : Z := 10000.
(** DefaultWorkers is the default amount of workers that will be used to
    process the edges. *)
Definition DefaultWorkers : Z := 10.

(** [type successCodes struct { http []int64; grpc []int64 }] *)
Record successCodes : Type := mkSuccessCodes {
  http : list Z;
  grpc : list Z
}.

(** [type Config struct].  The embedded [component.Config] interface field is
    nil in every value this package builds and is read by none of its
    functions; it is left out of the record. *)
Record Config : Type := mkConfig {
  Wait : time.Duration;
  MaxItems : Z;
  Workers : Z;
  SuccessCodes : ptr successCodes
}.

(** The value of the composite literal [Config{}]: every field holds the zero
    value of its type. *)
Definition zero_Config : Config :=
  {| Wait := 0; MaxItems := 0; Workers := 0; SuccessCodes := nilptr |}.

(** A value of the interface type [component.Config]: the nil interface, a
    [*Config] of this package (possibly a nil pointer), or a value of some
    other dynamic type, named by that type. *)
Inductive component_Config : Type :=
| NilConfig
| ServiceGraphConfig (p : ptr Config)
| ForeignConfig (dynamicType : string).

(** The type assertion of [cfg] to pointer-to-[Config]: it succeeds exactly
    when the dynamic type is pointer-to-[Config]; a nil pointer of that type
    passes the assertion. *)
Definition assert_Config (cfg : component_Config) : option (ptr Config) :=
  match cfg with
  | ServiceGraphConfig p => Some p
  | NilConfig | ForeignConfig _ => None
  end.

(** [component.StabilityLevel] of the collector. *)
Inductive StabilityLevel : Type :=
| StabilityLevelUndefined
| StabilityLevelUnmaintained
| StabilityLevelDeprecated
| StabilityLevelDevelopment
| StabilityLevelAlpha
| StabilityLevelBeta
| StabilityLevelStable.

(** [func createDefaultConfig() component.Config { return &Config{} }] *)
Definition createDefaultConfig (_ : unit) : component_Config :=
  ServiceGraphConfig (addr_of zero_Config).

Section Factory.
(** Collaborators of the factory whose definitions are outside this file:
    the collector's context, settings and consumer types, the processor
    type, and this package's [newProcessor]. *)
Variables (context_Context CreateSettings : Type).
Variables (consumer_Traces processor_Traces : Type).
Variable newProcessor : consumer_Traces -> ptr Config -> processor_Traces.

(** [func createTracesProcessor(_, _, cfg, nextConsumer)
      (processor.Traces, error)] *)
Definition createTracesProcessor (_ : context_Context) (_ : CreateSettings)
    (cfg : component_Config) (nextConsumer : consumer_Traces)
  : outcome (processor_Traces * error) :=
  match assert_Config cfg with
  | Some eCfg => Returned (newProcessor nextConsumer eCfg, nil_error)
  | None =>
      Panicked
        "interface conversion: interface is not *servicegraphprocessor.Config"
  end.

Definition CreateTracesFunc : Type :=
  context_Context -> CreateSettings -> component_Config -> consumer_Traces ->
  outcome (processor_Traces * error).

(** The collector's [processor.Factory] as built by [processor.NewFactory]:
    the type identifier, the default-config function and what the options
    installed. *)
Record processor_Factory : Type := mkFactory {
  cfgType : string;
  CreateDefaultConfigFunc : unit -> component_Config;
  createTracesFunc : option CreateTracesFunc;
  tracesStabilityLevel : StabilityLevel
}.

Definition FactoryOption : Type := processor_Factory -> processor_Factory.

(** [processor.WithTraces] *)
Definition processor_WithTraces (f : CreateTracesFunc) (sl : StabilityLevel)
  : FactoryOption :=
  fun o => {| cfgType := cfgType o;
              CreateDefaultConfigFunc := CreateDefaultConfigFunc o;
              createTracesFunc := Some f;
              tracesStabilityLevel := sl |}.

(** [processor.NewFactory]: stores its first two arguments and applies the
    options in order. *)
Definition processor_NewFactory (ty : string)
    (mk : unit -> component_Config) (options : list FactoryOption)
  : processor_Factory :=
  fold_left (fun f opt => opt f) options
    {| cfgType := ty;
       CreateDefaultConfigFunc := mk;
       createTracesFunc := None;
       tracesStabilityLevel := StabilityLevelUndefined |}.

(** [Factory.Type()] *)
Definition factory_Type (f : processor_Factory) : string := cfgType f.

(** [func NewFactory() processor.Factory] *)
Definition NewFactory (_ : unit) : processor_Factory :=
  processor_NewFactory TypeStr createDefaultConfig
    [processor_WithTraces createTracesProcessor StabilityLevelUndefined].
End Factory.

(** ** Correlation engine: data model *)

(** Modelled from the spec: the engine's CorrelationKey type, whose
    declaration is missing: the composite of a trace identifier and a span
    identifier. *)
Record CorrelationKey : Type := mkKey {
  traceID : string;
  spanID : string
}.

#[global] Instance CorrelationKey_eq_dec : EqDecision CorrelationKey.
Proof. solve_decision. Defined.

(** Modelled from the spec: the engine's role and protocol types, whose
    declarations are missing: the closed variants {Client, Server} and
    {HTTP, gRPC, Other} that a span's role and protocol resolve to. *)
Inductive Role : Type := Client | Server.
Inductive Protocol : Type := HTTP | GRPC | OtherProtocol.

#[global] Instance Role_eq_dec : EqDecision Role.
Proof. solve_decision. Defined.
#[global] Instance Protocol_eq_dec : EqDecision Protocol.
Proof. solve_decision. Defined.

(** Modelled from the spec: the span type the correlator consumes, missing
    with the correlator: trace, span and parent-span identifiers, service
    name, role marker, start and end timestamps, status code and protocol
    hint. An identifier or a role the span lacks (or that is not recognised)
    is [None]. *)
Record Span : Type := mkSpan {
  span_traceID : option string;
  span_spanID : option string;
  span_parentID : option string;
  span_service : string;
  span_kind : option Role;
  span_start : Z;
  span_end : Z;
  span_status : option Z;
  span_protocol : Protocol
}.

(** Modelled from the spec: the store's HalfEdge accumulator, whose
    declaration is missing, with the fields of the data model. *)
Record HalfEdge : Type := mkHalfEdge {
  key : CorrelationKey;
  clientService : option string;
  serverService : option string;
  clientLatencyStart : option Z;
  serverLatencyStart : option Z;
  statusCode : option Z;
  protocol : Protocol;
  expiresAt : Z;
  complete : bool
}.

(** Modelled from the spec: the CompletedEdge snapshot handed to the metrics
    emitter, whose declaration is missing, with the tag that marks an edge
    emitted with one side absent. *)
Record CompletedEdge : Type := mkCompletedEdge {
  ce_client : option string;
  ce_server : option string;
  ce_latency : option Z;
  ce_status : option Z;
  ce_protocol : Protocol;
  ce_success : bool;
  ce_incomplete : bool
}.

(** Modelled from the spec: the observations of the missing emitter, that is
    what it writes into the metrics registry: the request-count series
    labelled by (client, server, protocol, success class), the latency series,
    and the incomplete-edge, overflow and parsing-error counters. *)
Inductive Observation : Type :=
| RequestCount (client server : option string) (p : Protocol) (success : bool)
| LatencySample (client server : option string) (d : Z)
| IncompleteEdge
| Overflow
| ParsingError.

#[global] Instance Observation_eq_dec : EqDecision Observation.
Proof. solve_decision. Defined.

(** Modelled from the spec: the part of the missing [newProcessor] that reads
    the configuration: the immutable settings built once at startup: the wait,
    the capacity, the pool size and the two success-code sets.  A field left
    at Go's zero value, as in the configuration [createDefaultConfig] makes,
    takes its documented default (10s, 10,000, 10).  A nil [SuccessCodes]
    pointer configures no code. *)
Record Settings : Type := mkSettings {
  wait : Z;
  maxItems : Z;
  workers : Z;
  httpSuccessCodes : gset Z;
  grpcSuccessCodes : gset Z
}.

Definition orDefault (configured fallback : Z) : Z :=
  if configured =? 0 then fallback else configured.

Definition newSettings (cfg : Config) : Settings :=
  {| wait := orDefault (Wait cfg) DefaultWait;
     maxItems := orDefault (MaxItems cfg) DefaultMaxItems;
     workers := orDefault (Workers cfg) DefaultWorkers;
     httpSuccessCodes :=
       match SuccessCodes cfg with
       | Some sc => list_to_set (http sc)
       | None => ∅
       end;
     grpcSuccessCodes :=
       match SuccessCodes cfg with
       | Some sc => list_to_set (grpc sc)
       | None => ∅
       end |}.

(** ** Edge store *)

(** Modelled from the spec: the missing Edge Store, kept in insertion order
    with at most one half-edge per key ([get], [remove], [snapshotExpired],
    [size]); [oldest] is the entry the capacity governor evicts: the earliest
    [expiresAt], the first inserted among equals. *)
Module EdgeStore.
Definition t : Type := list HalfEdge.

Definition empty : t := [].

Definition size (st : t) : nat := length st.

Fixpoint get (k : CorrelationKey) (st : t) : option HalfEdge :=
  match st with
  | [] => None
  | h :: rest => if decide (key h = k) then Some h else get k rest
  end.

(** Writes [h] back over the resident entry with the same key. *)
Fixpoint set (h : HalfEdge) (st : t) : t :=
  match st with
  | [] => []
  | h0 :: rest =>
      if decide (key h0 = key h) then h :: rest else h0 :: set h rest
  end.

Fixpoint delete (k : CorrelationKey) (st : t) : t :=
  match st with
  | [] => []
  | h :: rest => if decide (key h = k) then rest else h :: delete k rest
  end.

Definition remove (k : CorrelationKey) (st : t) : option HalfEdge * t :=
  (get k st, delete k st).

Definition expired (now : Z) (h : HalfEdge) : bool := expiresAt h <? now.

Definition snapshotExpired (now : Z) (st : t) : list HalfEdge :=
  List.filter (expired now) st.

Fixpoint oldest (st : t) : option HalfEdge :=
  match st with
  | [] => None
  | h :: rest =>
      match oldest rest with
      | Some o => if expiresAt o <? expiresAt h then Some o else Some h
      | None => Some h
      end
  end.
End EdgeStore.

(** ** Capacity governor *)

Inductive Admission : Type := allow | evictOldest | reject.

(** Modelled from the spec: the missing Capacity Governor, that is
    [admit(currentSize, maxItems)] under the default policy: below the
    capacity the new key is allowed, otherwise the oldest half-edge is evicted
    to make room. The default policy never rejects. *)
Definition governor (currentSize : nat) (maxItems : Z) : Admission :=
  if Z.of_nat currentSize <? maxItems then allow else evictOldest.

(** ** Metrics emitter *)

(** Modelled from the spec: the missing emitter's success classification.
    An HTTP status is a
    success iff it is in the configured HTTP set, a gRPC status iff it is in
    the configured gRPC set; anything outside a configured set is an error. *)
Definition classify (s : Settings) (p : Protocol) (status : option Z) : bool :=
  match p, status with
  | HTTP, Some c => bool_decide (c ∈ httpSuccessCodes s)
  | GRPC, Some c => bool_decide (c ∈ grpcSuccessCodes s)
  | _, _ => false
  end.

(** Modelled from the spec: the missing latency computation: the latency of
    an edge is the delta between the
    server-side and the client-side start, present only when both are. *)
Definition latencyOf (h : HalfEdge) : option Z :=
  match clientLatencyStart h, serverLatencyStart h with
  | Some c, Some v => Some (v - c)
  | _, _ => None
  end.

(** Modelled from the spec: the missing conversion of a half-edge into the
    snapshot taken at hand-off, where the success-code sets are looked up. *)
Definition snapshot (s : Settings) (h : HalfEdge) (incomplete : bool)
  : CompletedEdge :=
  {| ce_client := clientService h;
     ce_server := serverService h;
     ce_latency := latencyOf h;
     ce_status := statusCode h;
     ce_protocol := protocol h;
     ce_success := classify s (protocol h) (statusCode h);
     ce_incomplete := incomplete |}.

(** Modelled from the spec: the missing Metrics Emitter, [emit(edge)].
    Appends one request-count
    observation; then an incomplete edge bumps the incomplete-edge counter,
    and a complete one records a latency sample when it has one. *)
Definition observations (edge : CompletedEdge) : list Observation :=
  RequestCount (ce_client edge) (ce_server edge) (ce_protocol edge)
    (ce_success edge) ::
  (if ce_incomplete edge then [IncompleteEdge]
   else match ce_latency edge with
        | Some d => [LatencySample (ce_client edge) (ce_server edge) d]
        | None => []
        end).

Definition emit (edge : CompletedEdge) (reg : list Observation)
  : list Observation :=
  reg ++ observations edge.

(** Value of a counter: how often observation [o] was written. *)
Definition counter (o : Observation) (reg : list Observation) : nat :=
  length (List.filter (fun x => bool_decide (x = o)) reg).

(** ** Engine state and operations *)

(** Modelled from the spec: the state of the missing processor: the edge
    store, the log of
    the edges handed to the emitter (each with the key it was emitted for) and
    the metrics registry. *)
Record Engine : Type := mkEngine {
  store : EdgeStore.t;
  emitted : list (CorrelationKey * CompletedEdge);
  registry : list Observation
}.

Definition newEngine : Engine :=
  {| store := EdgeStore.empty; emitted := []; registry := [] |}.

Definition withStore (st : EdgeStore.t) (e : Engine) : Engine :=
  {| store := st; emitted := emitted e; registry := registry e |}.

Definition count (o : Observation) (e : Engine) : Engine :=
  {| store := store e; emitted := emitted e; registry := registry e ++ [o] |}.

(** Hands the snapshot of [h] to the emitter. *)
Definition handoff (s : Settings) (h : HalfEdge) (incomplete : bool)
    (e : Engine) : Engine :=
  let edge := snapshot s h incomplete in
  {| store := store e;
     emitted := emitted e ++ [(key h, edge)];
     registry := emit edge (registry e) |}.

(** Modelled from the spec: the missing eviction of one key: [remove], then
    the emission of the removed half-edge tagged incomplete. It is the
    sweeper's per-key step and the governor's evict-oldest step. *)
Definition evict (s : Settings) (k : CorrelationKey) (e : Engine) : Engine :=
  match EdgeStore.remove k (store e) with
  | (Some h, st) => handoff s h true (withStore st e)
  | (None, _) => e
  end.

(** The governor's default policy at work: the overflow is counted and the
    oldest resident half-edge, if there is one, is evicted. *)
Definition makeRoom (s : Settings) (e : Engine) : Engine :=
  match EdgeStore.oldest (store e) with
  | Some o => evict s (key o) (count Overflow e)
  | None => count Overflow e
  end.

Definition newHalfEdge (k : CorrelationKey) (expires : Z) : HalfEdge :=
  {| key := k;
     clientService := None; serverService := None;
     clientLatencyStart := None; serverLatencyStart := None;
     statusCode := None; protocol := OtherProtocol;
     expiresAt := expires; complete := false |}.

(** Modelled from the spec: the store's missing [upsert(key, sideUpdate)],
    returning the
    half-edge after the merge and whether the key was already present
    ([None] only for a rejected new key).  A resident key is merged in place;
    a new key first passes the capacity governor and is then inserted with
    [expiresAt] = arrival time + wait. *)
Definition upsert (s : Settings) (now : Z) (k : CorrelationKey)
    (sideUpdate : HalfEdge -> HalfEdge) (e : Engine)
  : option (HalfEdge * bool) * Engine :=
  match EdgeStore.get k (store e) with
  | Some h =>
      let h' := sideUpdate h in
      (Some (h', true), withStore (EdgeStore.set h' (store e)) e)
  | None =>
      let insert e1 :=
        let h := sideUpdate (newHalfEdge k (now + wait s)) in
        (Some (h, false), withStore (store e1 ++ [h]) e1) in
      match governor (EdgeStore.size (store e)) (maxItems s) with
      | allow => insert e
      | evictOldest => insert (makeRoom s e)
      | reject => (None, e)
      end
  end.

(** ** Correlator *)

(** Modelled from the spec: the correlator's missing key derivation, from
    the trace identifier and the
    span or parent-span identifier: a client span is keyed by its own span
    identifier and a server span by its parent's, so that the two ends of one
    call get the same key.  A span without the identifiers or without a
    recognised role has no key. *)
Definition deriveKey (sp : Span) : option CorrelationKey :=
  match span_kind sp, span_traceID sp with
  | Some Client, Some t =>
      match span_spanID sp with
      | Some i => Some (mkKey t i)
      | None => None
      end
  | Some Server, Some t =>
      match span_parentID sp with
      | Some i => Some (mkKey t i)
      | None => None
      end
  | _, _ => None
  end.

Definition bothSides (client server : option string) : bool :=
  match client, server with
  | Some _, Some _ => true
  | _, _ => false
  end.

(** Modelled from the spec: the correlator's missing side update for a span
    of role [r]: its
    service name and start overwrite that side's fields, status and protocol
    are taken from the span when it carries them, and [complete] is set once
    both services are. *)
Definition mergeSide (sp : Span) (r : Role) (h : HalfEdge) : HalfEdge :=
  let client :=
    match r with Client => Some (span_service sp) | Server => clientService h end in
  let server :=
    match r with Server => Some (span_service sp) | Client => serverService h end in
  {| key := key h;
     clientService := client;
     serverService := server;
     clientLatencyStart :=
       match r with
       | Client => Some (span_start sp)
       | Server => clientLatencyStart h
       end;
     serverLatencyStart :=
       match r with
       | Server => Some (span_start sp)
       | Client => serverLatencyStart h
       end;
     statusCode :=
       match span_status sp with
       | Some c => Some c
       | None => statusCode h
       end;
     protocol :=
       match span_protocol sp with
       | OtherProtocol => protocol h
       | p => p
       end;
     expiresAt := expiresAt h;
     complete := bothSides client server |}.

(** Modelled from the spec: the missing Correlator, [onSpan(span)] at
    arrival time [now].  A
    malformed span is counted and dropped; otherwise the span's side is
    upserted and, when both sides are then present, the key is removed and
    the completed edge handed to the emitter. *)
Definition onSpan (s : Settings) (now : Z) (sp : Span) (e : Engine) : Engine :=
  match span_kind sp, deriveKey sp with
  | Some r, Some k =>
      match upsert s now k (mergeSide sp r) e with
      | (Some (h, _), e1) =>
          if complete h
          then handoff s h false
                 (withStore (snd (EdgeStore.remove k (store e1))) e1)
          else e1
      | (None, e1) => e1
      end
  | _, _ => count ParsingError e
  end.

(** ** Expiry sweeper *)

(** Modelled from the spec: the missing Expiry Sweeper, one tick of it: the
    expired keys are snapshotted and each of them is evicted once (the pool
    only decides which worker handles which key). *)
Definition evictAll (s : Settings) (ks : list CorrelationKey) (e : Engine)
  : Engine :=
  fold_left (fun e1 k => evict s k e1) ks e.

Definition sweep (s : Settings) (now : Z) (e : Engine) : Engine :=
  evictAll s (map key (EdgeStore.snapshotExpired now (store e))) e.

(** ** Runs of the engine *)

Inductive Event : Type :=
| Arrive (now : Z) (sp : Span)
| Tick (now : Z).

Definition step (s : Settings) (e : Engine) (ev : Event) : Engine :=
  match ev with
  | Arrive now sp => onSpan s now sp e
  | Tick now => sweep s now e
  end.

Definition run (s : Settings) (evs : list Event) (e : Engine) : Engine :=
  fold_left (step s) evs e.

(** States the engine can be in: those a run from the empty engine ends in. *)
Inductive reachable (s : Settings) : Engine -> Prop :=
| reachable_new : reachable s newEngine
| reachable_step e ev : reachable s e -> reachable s (step s e ev).

(** The store invariant of the data model: at most one half-edge per key, and
    no resident half-edge is complete. *)
Definition unique_keys (st : EdgeStore.t) : Prop := NoDup (map key st).

Definition wf (e : Engine) : Prop :=
  unique_keys (store e) /\ Forall (fun h => complete h = false) (store e).

(** The emissions of a log that were made for key [k]. *)
Definition emissionsFor (k : CorrelationKey)
    (log : list (CorrelationKey * CompletedEdge))
  : list (CorrelationKey * CompletedEdge) :=
  List.filter (fun em => bool_decide (fst em = k)) log.

(** A span that creates or updates one side of a half-edge with key [k]. *)
Definition sideOf (sp : Span) (r : Role) (k : CorrelationKey) : Prop :=
  span_kind sp = Some r /\ deriveKey sp = Some k.

(** The engine the governor leaves for the insertion of a new key. *)
Definition roomFor (s : Settings) (e : Engine) : Engine :=
  match governor (EdgeStore.size (store e)) (maxItems s) with
  | evictOldest => makeRoom s e
  | _ => e
  end.

(** The service recorded for side [r] of a half-edge, and the other role. *)
Definition sideService (r : Role) (h : HalfEdge) : option string :=
  match r with
  | Client => clientService h
  | Server => serverService h
  end.

Definition otherRole (r : Role) : Role :=
  match r with
  | Client => Server
  | Server => Client
  end.

(** An emitted edge that has both ends and is not tagged incomplete. *)
Definition paired (edge : CompletedEdge) : Prop :=
  ce_incomplete edge = false /\ ce_client edge ≠ None /\
  ce_server edge ≠ None.

(** The arrival events of a list of (arrival time, span) pairs. *)
Definition arrivals (l : list (Z * Span)) : list Event :=
  map (fun p => Arrive (fst p) (snd p)) l.

(** The emission of [edge] into registry [reg] counts one request in the
    series of its (client, server, protocol) with success class [success],
    and none in the series of the opposite class. *)
Definition countedAs (success : bool) (edge : CompletedEdge)
    (reg : list Observation) : Prop :=
  let series b :=
    RequestCount (ce_client edge) (ce_server edge) (ce_protocol edge) b in
  counter (series success) (emit edge reg)
  = S (counter (series success) reg) /\
  counter (series (negb success)) (emit edge reg)
  = counter (series (negb success)) reg.

(** The capacity bound as claimed for the arrivals [l] of spans with
    distinct keys, none of them malformed: after any part of the run the
    store holds at most [maxItems] half-edges, and at the end every insert
    beyond the bound has been matched by one eviction emission (an edge
    tagged incomplete, with one overflow counted). *)
Definition capacityBound (s : Settings) (l : list (Z * Span)) : Prop :=
  let e := run s (arrivals l) newEngine in
  let beyond := (length l - Z.to_nat (maxItems s))%nat in
  (forall evs rest, arrivals l = evs ++ rest ->
     Z.of_nat (EdgeStore.size (store (run s evs newEngine))) <= maxItems s) /\
  length (emitted e) = beyond /\
  Forall (fun em => ce_incomplete (snd em) = true) (emitted e) /\
  counter Overflow (registry e) = beyond.

(** The codes a configuration lists as HTTP and as gRPC successes; a nil
    [SuccessCodes] lists none. *)
Definition configuredHTTP (cfg : Config) : list Z :=
  match SuccessCodes cfg with
  | Some sc => http sc
  | None => []
  end.

Definition configuredGRPC (cfg : Config) : list Z :=
  match SuccessCodes cfg with
  | Some sc => grpc sc
  | None => []
  end.

(** An event that brings no span of key [k]. *)
Definition otherKey (k : CorrelationKey) (ev : Event) : Prop :=
  match ev with
  | Arrive _ sp => deriveKey sp ≠ Some k
  | Tick _ => True
  end.

(** What the engine emits for key [k] in the course of a run from [e]. *)
Definition emittedFor (s : Settings) (k : CorrelationKey) (evs : list Event)
    (e : Engine) : list (CorrelationKey * CompletedEdge) :=
  emissionsFor k (skipn (length (emitted e)) (emitted (run s evs e))).

(** The no-duplicate property as claimed, for a run in which the two spans
    of key [k] arrive: the engine emits exactly one edge for that key. *)
Definition emitsOneEdge (s : Settings) (k : CorrelationKey)
    (evs : list Event) (e : Engine) : Prop :=
  exists edge, emittedFor s k evs e = [(k, edge)].

(** The timeout property as claimed, for a sweep at [now] in state [e]: the
    sweep emits exactly one edge for key [k], tagged incomplete, and takes
    the size of the store down by one. *)
Definition sweeperEvicts (s : Settings) (k : CorrelationKey) (now : Z)
    (e : Engine) : Prop :=
  (exists edge,
     emittedFor s k [Tick now] e = [(k, edge)] /\
     ce_incomplete edge = true) /\
  S (EdgeStore.size (store (sweep s now e))) = EdgeStore.size (store e).

(** What can happen to key [k] between two states while something else
    goes on: either its entry is untouched and nothing is emitted for it, or
    its half-edge is evicted and emitted once, tagged incomplete. *)
Definition untouchedOrEvicted (s : Settings) (k : CorrelationKey)
    (e e' : Engine) : Prop :=
  exists new,
    emitted e' = emitted e ++ new /\
    ((EdgeStore.get k (store e') = EdgeStore.get k (store e) /\
      emissionsFor k new = []) \/
     (exists h,
        EdgeStore.get k (store e) = Some h /\
        EdgeStore.get k (store e') = None /\
        emissionsFor k new = [(k, snapshot s h true)])).

(** ** Decoding the configuration into the structs of factory.go *)

(** Go's rule for exported identifiers: the name starts with an upper-case
    letter. *)
Definition isUpper (a : ascii) : bool :=
  (65 <=? nat_of_ascii a)%nat && (nat_of_ascii a <=? 90)%nat.

Definition exported (name : string) : bool :=
  match name with
  | String a _ => isUpper a
  | EmptyString => false
  end.

(** A struct field as factory.go declares it: its Go name and the key of its
    [mapstructure] tag. *)
Record StructField : Type := mkField {
  fieldName : string;
  tagKey : string
}.

Definition Config_fields : list StructField :=
  [mkField "Wait" "wait"; mkField "MaxItems" "max_items";
   mkField "Workers" "workers"; mkField "SuccessCodes" "success_codes"].

Definition successCodes_http : StructField := mkField "http" "http".
Definition successCodes_grpc : StructField := mkField "grpc" "grpc".

(** The decoder of the mapstructure library, for one field of a struct:
    reflection can set exported fields only, so the value found under the
    field's key is stored when the field is exported, and an unexported
    field is skipped and keeps its zero value. *)
Definition decodeField {A : Type} (f : StructField) (input : gmap string A)
    (zero : A) : A :=
  if exported (fieldName f) then default zero (input !! tagKey f) else zero.

(** The value of the [success_codes] key decoded into a fresh
    [successCodes]. *)
Definition decode_successCodes (input : gmap string (list Z)) : successCodes :=
  {| http := decodeField successCodes_http input [];
     grpc := decodeField successCodes_grpc input [] |}.

(** What it would mean for a configuration value to carry the documented
    defaults. *)
Definition carriesDefaults (cfg : component_Config) : Prop :=
  exists c : Config,
    cfg = ServiceGraphConfig (addr_of c) /\
    Wait c = 10 * time.Second /\ MaxItems c = 10000 /\ Workers c = 10.

(** ** Sample inputs *)

Definition sampleCodes : successCodes := {| http := [200; 301]; grpc := [0] |}.

Definition sampleConfig : Config :=
  {| Wait := DefaultWait; MaxItems := 2; Workers := DefaultWorkers;
     SuccessCodes := addr_of sampleCodes |}.

Definition clientA : Span :=
  {| span_traceID := Some "T1"%string; span_spanID := Some "S1"%string;
     span_parentID := None; span_service := "A"%string;
     span_kind := Some Client;
     span_start := 1000 * time.Millisecond;
     span_end := 1010 * time.Millisecond;
     span_status := None; span_protocol := HTTP |}.

Definition serverB (status : Z) : Span :=
  {| span_traceID := Some "T1"%string; span_spanID := Some "S2"%string;
     span_parentID := Some "S1"%string; span_service := "B"%string;
     span_kind := Some Server;
     span_start := 1005 * time.Millisecond;
     span_end := 1009 * time.Millisecond;
     span_status := Some status; span_protocol := HTTP |}.

Definition clientOf (t i : string) : Span :=
  {| span_traceID := Some t; span_spanID := Some i;
     span_parentID := None; span_service := "A"%string;
     span_kind := Some Client;
     span_start := 0; span_end := 1;
     span_status := None; span_protocol := HTTP |}.

Definition sampleSettings : Settings := newSettings sampleConfig.

Definition sampleKey : CorrelationKey := mkKey "T1" "S1".

(** The half-edge of [sampleKey] once both sample spans have been merged. *)
Definition sampleHalfEdge (status : Z) : HalfEdge :=
  mergeSide (serverB status) Server
    (mergeSide clientA Client (newHalfEdge sampleKey DefaultWait)).

Definition sampleArrivals : list (Z * Span) :=
  [(0, clientOf "T" "a"); (1, clientOf "T" "b"); (2, clientOf "T" "c")].

(** ** journaltarget_test.go: the mock journal reader *)

(** A Go [map[string]string]: the nil map, or a map. *)
Definition go_map : Type := option (gmap string string).

Definition pairsOf (m : go_map) : gmap string string := default ∅ m.

(** The sequences of pairs [for k, v := range fields] may produce: every
    pair of [fields] once, in an order Go leaves unspecified (none for the
    nil map). *)
Definition rangeOver (fields : go_map) (visit : list (string * string))
  : Prop :=
  visit ≡ₚ map_to_list (pairsOf fields).

(** The conversion [uint64(x)] of an int64: the value modulo 2^64. *)
Definition uint64 (x : Z) : Z := x mod 2 ^ 64.

(** Declarations of the [sdjournal] library that the mock reader uses. *)
Module sdjournal.
Record JournalEntry : Type := mkJournalEntry {
  Fields : go_map;
  Cursor : string;
  RealtimeTimestamp : Z;
  MonotonicTimestamp : Z
}.

Record Match : Type := mkMatch { Field : string; Value : string }.

Record JournalReaderConfig : Type := mkJournalReaderConfig {
  Since : time.Duration;
  NumFromTail : Z;
  Matches : list Match;
  Path : string;
  Formatter : option (ptr JournalEntry -> string * error)
}.
End sdjournal.

Module JournalMock.
Section Mock.
(** The test handle [*testing.T] of the standard library, and what
    reporting a failure with a message does to it. *)
Variable testing_T : Type.
Variable reportFailure : testing_T -> string -> testing_T.

(** [type mockJournalReader struct] *)
Record mockJournalReader : Type := mkMockJournalReader {
  config : sdjournal.JournalReaderConfig;
  t : ptr testing_T
}.

(** [func newMockJournalReader(c) (journalReader, error)] *)
Definition newMockJournalReader (c : sdjournal.JournalReaderConfig)
  : ptr mockJournalReader * error :=
  (addr_of {| config := c; t := nilptr |}, nil_error).

(** [func (r *mockJournalReader) Close() error] *)
Definition Close (_ : mockJournalReader) : error := nil_error.

(** [func newMockJournalEntry(entry) journalEntryFunc]: the function it
    returns ignores both of its arguments. *)
Definition newMockJournalEntry (entry : ptr sdjournal.JournalEntry)
  : sdjournal.JournalReaderConfig -> string ->
    ptr sdjournal.JournalEntry * error :=
  fun _ _ => (entry, nil_error).

(** The loop [for k, v := range fields { allFields[k] = v }] on a fresh
    map, for the pairs in the order the loop visits them. *)
Definition copyFields (visit : list (string * string)) : gmap string string :=
  foldl (fun allFields kv => <[kv.1 := kv.2]> allFields) ∅ visit.

(** The entry [Write] builds at time [now] (the value of
    [time.Now().UnixNano()]). *)
Definition writtenEntry (visit : list (string * string)) (now : Z)
  : sdjournal.JournalEntry :=
  let allFields := copyFields visit in
  let ts := uint64 now in
  {| sdjournal.Fields := Some allFields;
     sdjournal.Cursor := EmptyString;
     sdjournal.RealtimeTimestamp := ts;
     sdjournal.MonotonicTimestamp := ts |}.

(** [assert.NoError(t, err)] of the testify library: nothing happens for a
    nil error; a non-nil error is reported as a failure through the test
    handle, which panics when the handle is nil.  The result is the test
    handle after the call. *)
Definition assert_NoError (t : ptr testing_T) (err : error)
  : outcome (ptr testing_T) :=
  match err with
  | None => Returned t
  | Some msg =>
      match t with
      | Some handle => Returned (Some (reportFailure handle msg))
      | None => Panicked "invalid memory address or nil pointer dereference"
      end
  end.

(** [func (r *mockJournalReader) Write(fields map[string]string)], where
    [visit] is the order in which the range loop goes through [fields].
    Calling a nil [Formatter] panics; the formatter's error goes to
    [assert.NoError(r.t, err)]. *)
Definition Write (r : mockJournalReader) (visit : list (string * string))
    (now : Z) : outcome (ptr testing_T) :=
  match sdjournal.Formatter (config r) with
  | Some format =>
      let '(_, err) := format (addr_of (writtenEntry visit now)) in
      assert_NoError (t r) err
  | None => Panicked "invalid memory address or nil pointer dereference"
  end.
End Mock.
End JournalMock.

(** ** journaltarget_test.go: the fake client *)

Module FakeClient.
(** What one call of the [OnStop] callback does: it returns, it panics, or
    it never returns. *)
Inductive CallbackResult : Type :=
| CallbackReturns
| CallbackPanics (msg : string)
| CallbackBlocks.

(** A Go [func()] handed to [New]: what its call does, given how many times
    it has run before. *)
Definition Callback : Type := nat -> CallbackResult.

Section Fake.
(** [loki.Entry] *)
Variable Entry : Type.

(** Where the goroutine started by [New] stands: blocked in
    [range c.entries], holding an entry it received and has not appended
    yet, or past the loop (its deferred [c.wg.Done()] has run). *)
Inductive Collector : Type :=
| Receiving
| Holding (e : Entry)
| Exited.

(** [type Client struct].  [entries] is an unbuffered channel, so its state
    is whether it is closed; [once] is whether [once.Do] has run; [wg] is
    the wait group's counter.  The mutex is not a field of the model: the
    sections it guards are single steps.  [OnStop] is the caller's callback
    (nil when [New] was given nil), and [OnStop_calls] counts the calls of it
    that returned.  [collector] and [stopping] (the [Stop]
    calls that are past [once.Do] and have not returned) are the control
    state of the goroutine and of the callers. *)
Record Client : Type := mkClient {
  entries_closed : bool;
  received : list Entry;
  once : bool;
  wg : nat;
  OnStop : ptr Callback;
  OnStop_calls : nat;
  collector : Collector;
  stopping : nat
}.

(** [func New(stop func()) *Client]: the channel is open, [wg.Add(1)] has
    run and the goroutine has started. *)
Definition New (stop : ptr Callback) : Client :=
  {| entries_closed := false; received := []; once := false; wg := 1;
     OnStop := stop; OnStop_calls := 0; collector := Receiving;
     stopping := 0 |}.

(** The steps of a client and of its users. *)
Inductive Event : Type :=
| Send (e : Entry)   (* a send on [c.Chan()] meets the goroutine's receive *)
| Collect            (* the goroutine: Lock, append, Unlock *)
| Exit               (* the goroutine: the range loop ends, [wg.Done()] *)
| StopClose          (* [Stop]: [c.once.Do(func() { close(c.entries) })] *)
| StopReturn         (* [Stop]: [c.wg.Wait()] is over, [c.OnStop()] returns *)
| Clear.             (* [Clear()] *)

Inductive progress : Type :=
| Stepped (c : Client)
| Blocked
| Panics (msg : string).

Definition step (c : Client) (ev : Event) : progress :=
  match ev with
  | Send e =>
      if entries_closed c then Panics "send on closed channel"
      else match collector c with
           | Receiving =>
               Stepped {| entries_closed := entries_closed c;
                          received := received c; once := once c;
                          wg := wg c; OnStop := OnStop c;
                          OnStop_calls := OnStop_calls c;
                          collector := Holding e; stopping := stopping c |}
           | Holding _ | Exited => Blocked
           end
  | Collect =>
      match collector c with
      | Holding e =>
          Stepped {| entries_closed := entries_closed c;
                     received := received c ++ [e]; once := once c;
                     wg := wg c; OnStop := OnStop c;
                     OnStop_calls := OnStop_calls c;
                     collector := Receiving; stopping := stopping c |}
      | Receiving | Exited => Blocked
      end
  | Exit =>
      match collector c with
      | Receiving =>
          if entries_closed c
          then Stepped {| entries_closed := true;
                          received := received c; once := once c;
                          wg := Nat.pred (wg c);
                          OnStop := OnStop c; OnStop_calls := OnStop_calls c;
                          collector := Exited; stopping := stopping c |}
          else Blocked
      | Holding _ | Exited => Blocked
      end
  | StopClose =>
      if once c
      then Stepped {| entries_closed := entries_closed c;
                      received := received c; once := true; wg := wg c;
                      OnStop := OnStop c; OnStop_calls := OnStop_calls c;
                      collector := collector c;
                      stopping := S (stopping c) |}
      else if entries_closed c then Panics "close of closed channel"
      else Stepped {| entries_closed := true;
                      received := received c; once := true; wg := wg c;
                      OnStop := OnStop c; OnStop_calls := OnStop_calls c;
                      collector := collector c;
                      stopping := S (stopping c) |}
  | StopReturn =>
      match stopping c, wg c with
      | S n, O =>
          match OnStop c with
          | None =>
              Panics "invalid memory address or nil pointer dereference"
          | Some callback =>
              match callback (OnStop_calls c) with
              | CallbackReturns =>
                  Stepped {| entries_closed := entries_closed c;
                             received := received c; once := once c;
                             wg := wg c; OnStop := OnStop c;
                             OnStop_calls := S (OnStop_calls c);
                             collector := collector c; stopping := n |}
              | CallbackPanics msg => Panics msg
              | CallbackBlocks => Blocked
              end
          end
      | _, _ => Blocked
      end
  | Clear =>
      Stepped {| entries_closed := entries_closed c;
                 received := []; once := once c; wg := wg c;
                 OnStop := OnStop c; OnStop_calls := OnStop_calls c;
                 collector := collector c; stopping := stopping c |}
  end.

(** A run: the events happen one after the other; there is no run when one
    of them would block or panic at its turn. *)
Fixpoint exec (tr : list Event) (c : Client) : option Client :=
  match tr with
  | [] => Some c
  | ev :: rest =>
      match step c ev with
      | Stepped c' => exec rest c'
      | Blocked | Panics _ => None
      end
  end.

(** [func (c *Client) Received() []loki.Entry]: a copy of the buffer. *)
Definition Received (c : Client) : list Entry := received c.

(** [func (c *Client) Name() string] *)
Definition Name (_ : Client) : string := "fake".

(** The entry the goroutine holds, if any. *)
Definition held (c : Client) : list Entry :=
  match collector c with
  | Holding e => [e]
  | Receiving | Exited => []
  end.

(** The entries of the sends of a run, in order. *)
Definition sent (tr : list Event) : list Entry :=
  flat_map (fun ev => match ev with Send e => [e] | _ => [] end) tr.

Definition isClear (ev : Event) : bool :=
  match ev with Clear => true | _ => false end.

Definition isStopClose (ev : Event) : bool :=
  match ev with StopClose => true | _ => false end.

Definition isStopReturn (ev : Event) : bool :=
  match ev with StopReturn => true | _ => false end.

Definition isGoroutineStep (ev : Event) : bool :=
  match ev with Collect | Exit => true | _ => false end.

Definition noClear (tr : list Event) : Prop :=
  forallb (fun ev => negb (isClear ev)) tr = true.

Definition occurs (p : Event -> bool) (tr : list Event) : Prop :=
  existsb p tr = true.

(** What a run from [New stop] keeps true. *)
Record invariant (stop : ptr Callback) (tr : list Event) (c : Client)
  : Prop := mkInvariant {
  inv_callback : OnStop c = stop;
  inv_entries :
    exists dropped,
      sent tr = dropped ++ received c ++ held c /\
      (noClear tr -> dropped = []);
  inv_once : once c = existsb isStopClose tr;
  inv_closed : entries_closed c = once c;
  inv_wg : wg c = match collector c with Exited => 0%nat | _ => 1%nat end;
  inv_exited : collector c = Exited -> entries_closed c = true;
  inv_returned : occurs isStopReturn tr -> collector c = Exited;
  inv_stops :
    (stopping c + OnStop_calls c)%nat = length (List.filter isStopClose tr);
  inv_calls : OnStop_calls c = length (List.filter isStopReturn tr)
}.
End Fake.

Arguments Receiving {Entry}.
Arguments Holding {Entry} e.
Arguments Exited {Entry}.
Arguments entries_closed {Entry} c.
Arguments received {Entry} c.
Arguments once {Entry} c.
Arguments wg {Entry} c.
Arguments OnStop {Entry} c.
Arguments OnStop_calls {Entry} c.
Arguments collector {Entry} c.
Arguments stopping {Entry} c.
Arguments New {Entry} stop.
Arguments Send {Entry} e.
Arguments Collect {Entry}.
Arguments Exit {Entry}.
Arguments StopClose {Entry}.
Arguments StopReturn {Entry}.
Arguments Clear {Entry}.
Arguments Stepped {Entry} c.
Arguments Blocked {Entry}.
Arguments Panics {Entry} msg.
Arguments step {Entry} c ev.
Arguments exec {Entry} tr c.
Arguments Received {Entry} c.
Arguments held {Entry} c.
Arguments sent {Entry} tr.
Arguments isClear {Entry} ev.
Arguments isStopClose {Entry} ev.
Arguments isStopReturn {Entry} ev.
Arguments isGoroutineStep {Entry} ev.
Arguments noClear {Entry} tr.
Arguments occurs {Entry} p tr.
Arguments invariant {Entry} stop tr c.
End FakeClient.

(** Runs of the sample spans: the client side expires and is swept before
    the server side arrives, which is swept in its turn. *)
Definition runSweptBetween : list Event :=
  [Arrive 0 clientA; Tick (DefaultWait + 1);
   Arrive (DefaultWait + 2) (serverB 200)].

Definition runSweptTwice : list Event :=
  runSweptBetween ++ [Tick (2 * DefaultWait + 3)].

Definition sampleCodesInput : gmap string (list Z) :=
  <["http"%string := [200; 301]]> {["grpc"%string := [0]]}.

(** Sample inputs of the mock reader and of the fake client. *)
Definition sampleFormatter (entry : ptr sdjournal.JournalEntry)
  : string * error :=
  match entry with
  | Some en =>
      match pairsOf (sdjournal.Fields en) !! "MESSAGE"%string with
      | Some msg => (msg, nil_error)
      | None => (EmptyString, Some "no message"%string)
      end
  | None => (EmptyString, Some "nil entry"%string)
  end.

Definition sampleReader : JournalMock.mockJournalReader (list string) :=
  {| JournalMock.config :=
       {| sdjournal.Since := 0; sdjournal.NumFromTail := 0;
          sdjournal.Matches := []; sdjournal.Path := EmptyString;
          sdjournal.Formatter := Some sampleFormatter |};
     JournalMock.t := nilptr |}.

Definition samplePairs : list (string * string) :=
  [("MESSAGE"%string, "ping"%string);
   ("CODE_FILE"%string, "journaltarget_test.go"%string)].

Definition sampleFields : go_map := Some (list_to_map samplePairs).

(** A callback that returns at every call. *)
Definition sampleStop : ptr FakeClient.Callback :=
  Some (fun _ => FakeClient.CallbackReturns).

Definition sampleRun : list (FakeClient.Event nat) :=
  [FakeClient.Send 1%nat; FakeClient.Collect; FakeClient.Send 2%nat;
   FakeClient.StopClose; FakeClient.Collect; FakeClient.Exit;
   FakeClient.StopReturn].

(** The state of the client made by [New] with the sample callback after
    the first [n] steps of the sample run. *)
Definition sampleState (n : nat) : FakeClient.Client nat :=
  default (FakeClient.New sampleStop)
    (FakeClient.exec (firstn n sampleRun) (FakeClient.New sampleStop)).

Definition sampleState2 : FakeClient.Client nat :=
  Eval vm_compute in sampleState 2.
Definition sampleState3 : FakeClient.Client nat :=
  Eval vm_compute in sampleState 3.
Definition sampleState4 : FakeClient.Client nat :=
  Eval vm_compute in sampleState 4.
Definition sampleState5 : FakeClient.Client nat :=
  Eval vm_compute in sampleState 5.
Definition sampleState7 : FakeClient.Client nat :=
  Eval vm_compute in sampleState 7.

(** * Properties of the factory *)

(** C5.  The documented defaults are the spec's: [DefaultWait] is ten
    seconds (10^10 nanoseconds), [DefaultMaxItems] is 10,000 and
    [DefaultWorkers] is 10. *)
Theorem default_constants :
  DefaultWait = 10 * time.Second /\
  DefaultWait = 10000000000 * time.Nanosecond /\
  DefaultMaxItems = 10000 /\
  DefaultWorkers = 10.
Proof. repeat split. Qed.

(** C6, as stated, fails: the configuration [createDefaultConfig] returns
    does not carry the documented defaults. *)
Lemma createDefaultConfig_lacks_defaults :
  ~ carriesDefaults (createDefaultConfig tt).
Proof.
  intros (c & Hc & Hwait & _).
  unfold createDefaultConfig, addr_of in Hc.
  injection Hc as <-.
  discriminate Hwait.
Qed.

(** C6, amended.  [createDefaultConfig] returns a pointer to the zero
    [Config]: [Wait], [MaxItems] and [Workers] are 0 and [SuccessCodes] is
    nil; none of them equals its documented default constant. *)
Theorem createDefaultConfig_zero (u : unit) :
  exists c : Config,
    createDefaultConfig u = ServiceGraphConfig (addr_of c) /\
    Wait c = 0 /\ MaxItems c = 0 /\ Workers c = 0 /\
    SuccessCodes c = nilptr /\
    Wait c <> DefaultWait /\ MaxItems c <> DefaultMaxItems /\
    Workers c <> DefaultWorkers.
Proof. exists zero_Config. repeat split; discriminate. Qed.

Section FactoryFacts.
Variables (context_Context CreateSettings : Type).
Variables (consumer_Traces processor_Traces : Type).
Variable newProcessor : consumer_Traces -> ptr Config -> processor_Traces.

Local Abbreviation createTraces :=
  (createTracesProcessor context_Context CreateSettings consumer_Traces
     processor_Traces newProcessor).

(** C7.  Given a configuration whose dynamic type is pointer-to-[Config],
    [createTracesProcessor] returns, and the error it returns is nil. *)
Theorem createTracesProcessor_nil_error
    (ctx : context_Context) (set : CreateSettings) (p : ptr Config)
    (next : consumer_Traces) :
  exists proc : processor_Traces,
    createTraces ctx set (ServiceGraphConfig p) next
    = Returned (proc, nil_error).
Proof. exists (newProcessor next p). reflexivity. Qed.

(** C9.  The type assertion is unchecked.  On a pointer-to-[Config]
    configuration the call returns the processor [newProcessor] builds from
    that very pointer; on the configuration made by [createDefaultConfig]
    it therefore does not panic; on any other configuration it panics
    instead of returning an error. *)
Theorem createTracesProcessor_assertion
    (ctx : context_Context) (set : CreateSettings) (next : consumer_Traces) :
  (forall p : ptr Config,
      createTraces ctx set (ServiceGraphConfig p) next
      = Returned (newProcessor next p, nil_error)) /\
  (forall u : unit,
      panics (createTraces ctx set (createDefaultConfig u) next) = false /\
      returned (createTraces ctx set (createDefaultConfig u) next)
      = Some (newProcessor next (addr_of zero_Config), nil_error)) /\
  (forall cfg : component_Config,
      (forall p : ptr Config, cfg <> ServiceGraphConfig p) ->
      panics (createTraces ctx set cfg next) = true).
Proof.
  split; [reflexivity|]. split; [intros u; split; reflexivity|].
  intros cfg Hcfg. destruct cfg as [|p|ty]; try reflexivity.
  now destruct (Hcfg p).
Qed.

(** C10.  Every factory returned by [NewFactory] is registered under the
    type identifier [TypeStr], the string "service_graphs". *)
Theorem NewFactory_type (u : unit) :
  factory_Type _ _ _ _
    (NewFactory context_Context CreateSettings consumer_Traces
       processor_Traces newProcessor u)
  = "service_graphs"%string /\
  TypeStr = "service_graphs"%string.
Proof. split; reflexivity. Qed.
End FactoryFacts.

(** A foreign configuration makes [createTracesProcessor] panic. *)
Lemma createTracesProcessor_assertion_witness :
  panics
    (createTracesProcessor unit unit unit (ptr Config) (fun _ p => p)
       tt tt (ForeignConfig "otlp.Config") tt) = true.
Proof.
  apply (proj2 (proj2
    (createTracesProcessor_assertion unit unit unit (ptr Config)
       (fun _ p => p) tt tt tt))).
  intros p. discriminate.
Defined.

(** * Properties of the edge store *)

Section StoreFacts.
Import EdgeStore.

Lemma get_In k st h : get k st = Some h -> In h st /\ key h = k.
Proof.
  induction st as [|h0 rest IH]; simpl; [discriminate|].
  destruct (decide (key h0 = k)) as [Heq|Hne].
  - intros [= <-]. auto.
  - intros Hget. destruct (IH Hget). auto.
Qed.

Lemma get_None k st : get k st = None <-> ~ In k (map key st).
Proof.
  induction st as [|h0 rest IH]; simpl; [tauto|].
  destruct (decide (key h0 = k)) as [Heq|Hne].
  - split; [discriminate|]. intros H. destruct H. auto.
  - rewrite IH. tauto.
Qed.

Lemma get_of_In h st :
  unique_keys st -> In h st -> get (key h) st = Some h.
Proof.
  unfold unique_keys.
  induction st as [|h0 rest IH]; simpl; [tauto|].
  intros Hnd [->|Hin].
  - destruct (decide (key h = key h)); congruence.
  - apply NoDup_cons in Hnd as [Hnotin Hnd']; rewrite list_elem_of_In in Hnotin.
    destruct (decide (key h0 = key h)) as [Heq|Hne]; [|auto].
    destruct Hnotin. rewrite Heq. now apply in_map.
Qed.

Lemma get_snoc k st h :
  get k (st ++ [h]) =
  match get k st with
  | Some x => Some x
  | None => if decide (key h = k) then Some h else None
  end.
Proof.
  induction st as [|h0 rest IH]; simpl; [reflexivity|].
  destruct (decide (key h0 = k)); auto.
Qed.

Lemma delete_absent k st : get k st = None -> delete k st = st.
Proof.
  induction st as [|h0 rest IH]; simpl; [reflexivity|].
  destruct (decide (key h0 = k)); [discriminate|].
  intros H. now rewrite IH.
Qed.

Lemma In_delete x k st : In x (delete k st) -> In x st.
Proof.
  induction st as [|h0 rest IH]; simpl; [tauto|].
  destruct (decide (key h0 = k)); simpl; tauto.
Qed.

Lemma keys_delete x k st :
  In x (map key (delete k st)) -> In x (map key st).
Proof.
  induction st as [|h0 rest IH]; simpl; [tauto|].
  destruct (decide (key h0 = k)); simpl; tauto.
Qed.

Lemma unique_delete k st : unique_keys st -> unique_keys (delete k st).
Proof.
  unfold unique_keys.
  induction st as [|h0 rest IH]; simpl; [auto|].
  intros Hnd. apply NoDup_cons in Hnd as [Hnotin Hnd']; rewrite list_elem_of_In in Hnotin.
  destruct (decide (key h0 = k)); [assumption|].
  simpl. apply NoDup_cons. split; [rewrite list_elem_of_In|auto].
  intros Hin. apply Hnotin. eapply keys_delete; eauto.
Qed.

Lemma get_delete_same k st : unique_keys st -> get k (delete k st) = None.
Proof.
  unfold unique_keys.
  induction st as [|h0 rest IH]; simpl; [reflexivity|].
  intros Hnd. apply NoDup_cons in Hnd as [Hnotin Hnd']; rewrite list_elem_of_In in Hnotin.
  destruct (decide (key h0 = k)) as [Heq|Hne].
  - apply get_None. now rewrite <- Heq.
  - simpl. destruct (decide (key h0 = k)); [contradiction|auto].
Qed.

Lemma get_delete_other k k' st : k <> k' -> get k' (delete k st) = get k' st.
Proof.
  intros Hne.
  induction st as [|h0 rest IH]; simpl; [reflexivity|].
  destruct (decide (key h0 = k)) as [Heq|Hne0];
    destruct (decide (key h0 = k')) as [Heq'|Hne0']; simpl;
    try congruence.
  - destruct (decide (key h0 = k')); congruence.
  - destruct (decide (key h0 = k')); congruence.
Qed.

Lemma length_delete k st h :
  get k st = Some h -> S (length (delete k st)) = length st.
Proof.
  induction st as [|h0 rest IH]; simpl; [discriminate|].
  destruct (decide (key h0 = k)); [reflexivity|].
  intros H. simpl. now rewrite IH.
Qed.

Lemma keys_set h st : map key (set h st) = map key st.
Proof.
  induction st as [|h0 rest IH]; simpl; [reflexivity|].
  destruct (decide (key h0 = key h)); simpl; congruence.
Qed.

Lemma length_set h st : length (set h st) = length st.
Proof.
  induction st as [|h0 rest IH]; simpl; [reflexivity|].
  destruct (decide (key h0 = key h)); simpl; congruence.
Qed.

Lemma get_set_same h st :
  get (key h) st <> None -> get (key h) (set h st) = Some h.
Proof.
  induction st as [|h0 rest IH]; simpl; [congruence|].
  destruct (decide (key h0 = key h)); simpl.
  - intros _. destruct (decide (key h = key h)); congruence.
  - intros H. destruct (decide (key h0 = key h)); [contradiction|auto].
Qed.

Lemma get_set_other k h st : k <> key h -> get k (set h st) = get k st.
Proof.
  intros Hne.
  induction st as [|h0 rest IH]; simpl; [reflexivity|].
  destruct (decide (key h0 = key h)) as [Heq|Hne0]; simpl.
  - destruct (decide (key h = k)); [congruence|].
    destruct (decide (key h0 = k)); congruence.
  - destruct (decide (key h0 = k)); auto.
Qed.

Lemma In_set x h st : In x (set h st) -> x = h \/ In x st.
Proof.
  induction st as [|h0 rest IH]; simpl; [tauto|].
  destruct (decide (key h0 = key h)); simpl; intuition auto.
Qed.

Lemma In_delete_set x h st :
  In x (delete (key h) (set h st)) -> In x st.
Proof.
  induction st as [|h0 rest IH]; simpl; [tauto|].
  destruct (decide (key h0 = key h)) as [Heq|Hne]; simpl.
  - destruct (decide (key h = key h)); [auto|congruence].
  - destruct (decide (key h0 = key h)); [contradiction|].
    simpl. intros [->|Hin]; auto.
Qed.

Lemma oldest_In st o : oldest st = Some o -> In o st.
Proof.
  revert o. induction st as [|h0 rest IH]; simpl; [discriminate|].
  intros o. destruct (oldest rest) as [o'|].
  - destruct (expiresAt o' <? expiresAt h0); intros [= <-]; auto.
  - intros [= <-]. auto.
Qed.

Lemma oldest_None st : oldest st = None -> st = [].
Proof.
  destruct st as [|h0 rest]; simpl; [reflexivity|].
  destruct (oldest rest) as [o'|]; [|discriminate].
  destruct (expiresAt o' <? expiresAt h0); discriminate.
Qed.

Lemma unique_snoc st h :
  unique_keys st -> get (key h) st = None -> unique_keys (st ++ [h]).
Proof.
  unfold unique_keys. intros Hnd Hget.
  rewrite map_app. simpl.
  apply NoDup_app. split; [assumption|]. split.
  - intros x Hx Hx'. apply list_elem_of_In in Hx, Hx'.
    simpl in Hx'. destruct Hx' as [<-|[]].
    now apply get_None in Hget.
  - apply NoDup_singleton.
Qed.

End StoreFacts.

(** * Properties of the engine's operations *)

Section EngineFacts.
Import EdgeStore.
Variable s : Settings.

Lemma store_evict k e : store (evict s k e) = delete k (store e).
Proof.
  unfold evict, remove. destruct (get k (store e)) eqn:Hget; simpl; auto.
  now rewrite delete_absent.
Qed.

Lemma emitted_evict k e :
  emitted (evict s k e) =
  emitted e ++
  match get k (store e) with
  | Some h => [(key h, snapshot s h true)]
  | None => []
  end.
Proof.
  unfold evict, remove. destruct (get k (store e)); simpl; auto.
  now rewrite app_nil_r.
Qed.

Lemma registry_evict k e :
  registry (evict s k e) =
  registry e ++
  match get k (store e) with
  | Some h => observations (snapshot s h true)
  | None => []
  end.
Proof.
  unfold evict, remove. destruct (get k (store e)); simpl; auto.
  now rewrite app_nil_r.
Qed.

Lemma store_makeRoom e :
  store (makeRoom s e) =
  match oldest (store e) with
  | Some o => delete (key o) (store e)
  | None => store e
  end.
Proof.
  unfold makeRoom. destruct (oldest (store e)); [|reflexivity].
  now rewrite store_evict.
Qed.

Lemma emitted_makeRoom e :
  unique_keys (store e) ->
  emitted (makeRoom s e) =
  emitted e ++
  match oldest (store e) with
  | Some o => [(key o, snapshot s o true)]
  | None => []
  end.
Proof.
  intros Hu. unfold makeRoom.
  destruct (oldest (store e)) as [o|] eqn:Ho; simpl.
  - rewrite emitted_evict. simpl.
    now rewrite (get_of_In o (store e) Hu (oldest_In _ _ Ho)).
  - now rewrite app_nil_r.
Qed.

Lemma registry_makeRoom e :
  unique_keys (store e) ->
  registry (makeRoom s e) =
  registry e ++ Overflow ::
  match oldest (store e) with
  | Some o => observations (snapshot s o true)
  | None => []
  end.
Proof.
  intros Hu. unfold makeRoom.
  destruct (oldest (store e)) as [o|] eqn:Ho; simpl; [|reflexivity].
  rewrite registry_evict. simpl.
  rewrite (get_of_In o (store e) Hu (oldest_In _ _ Ho)).
  now rewrite <- app_assoc.
Qed.

Lemma sideOf_role sp r k : sideOf sp r k -> span_kind sp = Some r.
Proof. now intros [H _]. Qed.

Lemma deriveKey_cases sp :
  deriveKey sp = None \/ exists r k, sideOf sp r k.
Proof.
  destruct (deriveKey sp) as [k|] eqn:Hk; [right|now left].
  assert (Hk' := Hk). unfold deriveKey in Hk'.
  destruct (span_kind sp) as [r|] eqn:Hr; [|discriminate].
  exists r, k. now split.
Qed.

Lemma key_mergeSide sp r h : key (mergeSide sp r h) = key h.
Proof. reflexivity. Qed.

Lemma expiresAt_mergeSide sp r h : expiresAt (mergeSide sp r h) = expiresAt h.
Proof. reflexivity. Qed.

Lemma complete_merge_new sp r k t :
  complete (mergeSide sp r (newHalfEdge k t)) = false.
Proof. now destruct r. Qed.

(** A malformed span only bumps the parsing-error counter. *)
Lemma onSpan_malformed now sp e :
  deriveKey sp = None -> onSpan s now sp e = count ParsingError e.
Proof.
  intros Hk. unfold onSpan. rewrite Hk. now destruct (span_kind sp).
Qed.

(** A span whose key is not resident creates a half-edge, after the governor
    made room when the store was at capacity. *)
Lemma onSpan_fresh now sp r k e :
  sideOf sp r k -> get k (store e) = None ->
  onSpan s now sp e =
  withStore
    (store (roomFor s e) ++ [mergeSide sp r (newHalfEdge k (now + wait s))])
    (roomFor s e).
Proof.
  intros [Hr Hk] Hget. unfold onSpan, upsert, roomFor, governor.
  rewrite Hr, Hk, Hget.
  destruct (Z.of_nat (size (store e)) <? maxItems s);
    cbv zeta; now rewrite complete_merge_new.
Qed.

(** A span whose key is resident merges into the half-edge, and completes
    it when the other side is there. *)
Lemma onSpan_resident now sp r k e h :
  sideOf sp r k -> get k (store e) = Some h ->
  onSpan s now sp e =
  if complete (mergeSide sp r h)
  then handoff s (mergeSide sp r h) false
         (withStore (delete k (set (mergeSide sp r h) (store e))) e)
  else withStore (set (mergeSide sp r h) (store e)) e.
Proof.
  intros [Hr Hk] Hget. unfold onSpan, upsert.
  rewrite Hr, Hk, Hget. reflexivity.
Qed.

Lemma wf_roomFor e : wf e -> wf (roomFor s e).
Proof.
  intros [Hu Hc]. unfold roomFor, governor.
  destruct (Z.of_nat (size (store e)) <? maxItems s); [now split|].
  unfold wf. rewrite store_makeRoom.
  destruct (oldest (store e)); [|now split].
  split; [now apply unique_delete|].
  rewrite List.Forall_forall in *. intros x Hx. apply Hc.
  eapply In_delete; eauto.
Qed.

Lemma get_roomFor_None k e :
  get k (store e) = None -> get k (store (roomFor s e)) = None.
Proof.
  unfold roomFor, governor. destruct (Z.of_nat (size (store e)) <? maxItems s); [auto|].
  rewrite store_makeRoom. destruct (oldest (store e)); [|auto].
  rewrite !get_None. intros Hk Hin. apply Hk. eapply keys_delete; eauto.
Qed.

Lemma onSpan_wf now sp e : wf e -> wf (onSpan s now sp e).
Proof.
  intros Hwf.
  destruct (deriveKey_cases sp) as [Hk|(r & k & Hside)].
  { rewrite onSpan_malformed by assumption. exact Hwf. }
  destruct (get k (store e)) as [h|] eqn:Hget.
  - rewrite (onSpan_resident now sp r k e h) by assumption.
    destruct Hwf as [Hu Hc].
    assert (Hkey : key (mergeSide sp r h) = k)
      by (rewrite key_mergeSide; now apply get_In in Hget).
    destruct (complete (mergeSide sp r h)) eqn:Hcomp; split; simpl.
    + apply unique_delete. unfold unique_keys. now rewrite keys_set.
    + rewrite List.Forall_forall in *. intros x Hx. apply Hc.
      rewrite <- Hkey in Hx. now apply In_delete_set in Hx.
    + unfold unique_keys. now rewrite keys_set.
    + rewrite List.Forall_forall in *. intros x Hx.
      apply In_set in Hx as [->|Hx]; auto.
  - rewrite (onSpan_fresh now sp r k e) by assumption.
    destruct (wf_roomFor e Hwf) as [Hu Hc].
    split; simpl.
    + apply unique_snoc; [assumption|].
      rewrite key_mergeSide. simpl. now apply get_roomFor_None.
    + apply Forall_app. split; [assumption|].
      constructor; [apply complete_merge_new|constructor].
Qed.

End EngineFacts.

(** * Properties of the sweeper *)

Section SweeperFacts.
Import EdgeStore.
Variable s : Settings.

Lemma NoDup_keys_filter (f : HalfEdge -> bool) st :
  unique_keys st -> NoDup (map key (List.filter f st)).
Proof.
  unfold unique_keys.
  induction st as [|h rest IH]; simpl; [auto|].
  intros Hnd. apply NoDup_cons in Hnd as [Hnotin Hnd'].
  destruct (f h); simpl; [|auto].
  apply NoDup_cons. split; [|auto].
  rewrite list_elem_of_In in *. intros Hin. apply Hnotin.
  apply in_map_iff in Hin as (x & Hx & Hin).
  apply List.filter_In in Hin as [Hin _].
  rewrite <- Hx. now apply in_map.
Qed.

Lemma evictAll_app ks1 ks2 e :
  evictAll s (ks1 ++ ks2) e = evictAll s ks2 (evictAll s ks1 e).
Proof. apply fold_left_app. Qed.

Lemma evictAll_cons k ks e :
  evictAll s (k :: ks) e = evictAll s ks (evict s k e).
Proof. reflexivity. Qed.

(** Evicting, one after the other, the keys of resident half-edges [l]:
    each is emitted once, tagged incomplete, and leaves the store. *)
Lemma fold_evict (l : list HalfEdge) :
  forall e,
    unique_keys (store e) ->
    Forall (fun h => get (key h) (store e) = Some h) l ->
    NoDup (map key l) ->
    let e' := evictAll s (map key l) e in
    emitted e' = emitted e ++ map (fun h => (key h, snapshot s h true)) l /\
    registry e' =
      registry e ++ flat_map (fun h => observations (snapshot s h true)) l /\
    (length (store e') + length l = length (store e))%nat /\
    unique_keys (store e') /\
    (forall k, In k (map key l) -> get k (store e') = None) /\
    (forall k, ~ In k (map key l) -> get k (store e') = get k (store e)) /\
    (forall x, In x (store e') -> In x (store e)).
Proof.
  induction l as [|h l IH]; intros e Hu Hres Hnd; simpl.
  { rewrite !app_nil_r. repeat split; auto; tauto. }
  apply Forall_cons in Hres as [Hh Hres].
  apply NoDup_cons in Hnd as [Hnotin Hnd].
  rewrite list_elem_of_In in Hnotin.
  assert (Hu1 : unique_keys (store (evict s (key h) e)))
    by (rewrite store_evict; now apply unique_delete).
  assert (Hres1 : Forall (fun x => get (key x) (store (evict s (key h) e))
                                   = Some x) l).
  { rewrite List.Forall_forall in *. intros x Hx.
    rewrite store_evict, get_delete_other; [now apply Hres|].
    intros Heq. apply Hnotin. rewrite Heq. now apply in_map. }
  destruct (IH (evict s (key h) e) Hu1 Hres1 Hnd)
    as (Hem & Hreg & Hlen & Hu' & Hgone & Hkept & Hsub).
  rewrite Hem, Hreg, emitted_evict, registry_evict, Hh, <- !app_assoc.
  repeat split; auto.
  - rewrite store_evict in Hlen.
    pose proof (length_delete _ _ _ Hh). lia.
  - intros k [<-|Hin]; [|now apply Hgone].
    rewrite Hkept by assumption.
    rewrite store_evict. now apply get_delete_same.
  - intros k Hk. rewrite Hkept by tauto.
    rewrite store_evict. apply get_delete_other. tauto.
  - intros x Hx. apply Hsub in Hx. rewrite store_evict in Hx.
    eapply In_delete; eauto.
Qed.

(** One tick of the sweeper on a store with unique keys. *)
Lemma sweep_spec now e :
  unique_keys (store e) ->
  let old := snapshotExpired now (store e) in
  emitted (sweep s now e) =
    emitted e ++ map (fun h => (key h, snapshot s h true)) old /\
  registry (sweep s now e) =
    registry e ++ flat_map (fun h => observations (snapshot s h true)) old /\
  (length (store (sweep s now e)) + length old = length (store e))%nat /\
  unique_keys (store (sweep s now e)) /\
  (forall k, In k (map key old) -> get k (store (sweep s now e)) = None) /\
  (forall k, ~ In k (map key old) ->
             get k (store (sweep s now e)) = get k (store e)) /\
  (forall x, In x (store (sweep s now e)) -> In x (store e)).
Proof.
  intros Hu old. unfold sweep. apply fold_evict; [assumption| |].
  - apply List.Forall_forall. intros h Hh.
    apply List.filter_In in Hh as [Hh _]. now apply get_of_In.
  - now apply NoDup_keys_filter.
Qed.

(** Within a tick, the eviction of one expired half-edge is a step of its
    own: it takes the size down by one and emits that half-edge once. *)
Lemma sweep_evicts_key now e h :
  unique_keys (store e) ->
  In h (snapshotExpired now (store e)) ->
  exists before after,
    map key (snapshotExpired now (store e)) = before ++ key h :: after /\
    let eb := evictAll s before e in
    sweep s now e = evictAll s after (evict s (key h) eb) /\
    S (size (store (evict s (key h) eb))) = size (store eb) /\
    emitted (evict s (key h) eb)
    = emitted eb ++ [(key h, snapshot s h true)].
Proof.
  intros Hu Hold.
  pose proof (NoDup_keys_filter (expired now) (store e) Hu) as Hnd.
  assert (Hres : Forall (fun x => get (key x) (store e) = Some x)
                   (snapshotExpired now (store e))).
  { apply List.Forall_forall. intros x Hx.
    apply List.filter_In in Hx as [Hx _]. now apply get_of_In. }
  unfold sweep. fold (snapshotExpired now (store e)) in Hnd.
  destruct (in_split h _ Hold) as (l1 & l2 & Hsplit).
  rewrite Hsplit in *. rewrite map_app in *. simpl in *.
  exists (map key l1), (map key l2). split; [reflexivity|].
  rewrite evictAll_app, evictAll_cons. split; [reflexivity|].
  apply NoDup_app in Hnd as (Hnd1 & Hdisj & _).
  apply Forall_app in Hres as [Hres1 Hres2].
  apply Forall_cons in Hres2 as [Hh _].
  destruct (fold_evict l1 e Hu Hres1 Hnd1) as (_ & _ & _ & _ & _ & Hkept & _).
  assert (Hget : get (key h) (store (evictAll s (map key l1) e)) = Some h).
  { rewrite Hkept; [assumption|].
    intros Hin. apply (Hdisj (key h)); rewrite list_elem_of_In; auto.
    now left. }
  rewrite store_evict, emitted_evict, Hget. split; [|reflexivity].
  unfold size. now apply (length_delete _ _ h).
Qed.

Lemma sweep_wf now e : wf e -> wf (sweep s now e).
Proof.
  intros [Hu Hc].
  destruct (sweep_spec now e Hu) as (_ & _ & _ & Hu' & _ & _ & Hsub).
  split; [assumption|].
  rewrite List.Forall_forall in *. auto.
Qed.

Lemma step_wf e ev : wf e -> wf (step s e ev).
Proof.
  destruct ev; simpl; [apply onSpan_wf|apply sweep_wf].
Qed.

(** The store invariant holds in every state the engine can be in. *)
Lemma reachable_wf e : reachable s e -> wf e.
Proof.
  induction 1 as [|e ev _ IH].
  - split; [apply NoDup_nil_2|constructor].
  - now apply step_wf.
Qed.

Lemma run_wf evs : forall e, wf e -> wf (run s evs e).
Proof.
  induction evs as [|ev evs IH]; intros e Hwf; simpl; [assumption|].
  apply IH. now apply step_wf.
Qed.

Lemma run_reachable evs : forall e, reachable s e -> reachable s (run s evs e).
Proof.
  induction evs as [|ev evs IH]; intros e He; simpl; [assumption|].
  apply IH. now constructor.
Qed.

(** In a list of half-edges with distinct keys, one key selects one entry. *)
Lemma emissionsFor_map (f : HalfEdge -> CompletedEdge) l h :
  NoDup (map key l) -> In h l ->
  emissionsFor (key h) (map (fun x => (key x, f x)) l) = [(key h, f h)].
Proof.
  induction l as [|x l IH]; simpl; [tauto|].
  intros Hnd Hin. apply NoDup_cons in Hnd as [Hnotin Hnd].
  rewrite list_elem_of_In in Hnotin.
  assert (Hrest : forall l', ~ In (key h) (map key l') ->
            emissionsFor (key h) (map (fun x => (key x, f x)) l') = []).
  { induction l' as [|y l' IH']; simpl; [reflexivity|].
    intros Hn. rewrite bool_decide_eq_false_2 by tauto. apply IH'. tauto. }
  destruct Hin as [->|Hin].
  - rewrite bool_decide_eq_true_2 by reflexivity.
    now rewrite Hrest.
  - rewrite bool_decide_eq_false_2.
    + now apply IH.
    + intros Heq. apply Hnotin. rewrite Heq. now apply in_map.
Qed.

End SweeperFacts.

(** * Properties of the correlator *)

Section CorrelatorFacts.
Import EdgeStore.
Variable s : Settings.

Lemma otherRole_involutive r : otherRole (otherRole r) = r.
Proof. now destruct r. Qed.

Lemma emissionsFor_app k l1 l2 :
  emissionsFor k (l1 ++ l2) = emissionsFor k l1 ++ emissionsFor k l2.
Proof. apply List.filter_app. Qed.

Lemma emissionsFor_same k edge : emissionsFor k [(k, edge)] = [(k, edge)].
Proof.
  unfold emissionsFor. simpl. now rewrite bool_decide_eq_true_2.
Qed.

Lemma emissionsFor_other k k' edge :
  k' <> k -> emissionsFor k [(k', edge)] = [].
Proof.
  intros Hne. unfold emissionsFor. simpl. now rewrite bool_decide_eq_false_2.
Qed.

(** What the governor emits when it makes room never concerns a key that is
    not resident. *)
Lemma emitted_roomFor k e :
  unique_keys (store e) -> get k (store e) = None ->
  exists new,
    emitted (roomFor s e) = emitted e ++ new /\ emissionsFor k new = [].
Proof.
  intros Hu Hget. unfold roomFor.
  destruct (governor (size (store e)) (maxItems s));
    try (exists []; now rewrite app_nil_r).
  rewrite emitted_makeRoom by assumption.
  destruct (oldest (store e)) as [o|] eqn:Ho; [|now exists []].
  eexists. split; [reflexivity|].
  apply emissionsFor_other. intros Heq.
  apply oldest_In in Ho. apply get_None in Hget.
  apply Hget. rewrite <- Heq. now apply in_map.
Qed.

(** Arrival of a side whose key is not resident: nothing is emitted for the
    key, and the new half-edge is resident with that side populated. *)
Lemma onSpan_creates now sp r k e :
  wf e -> sideOf sp r k -> get k (store e) = None ->
  exists new,
    emitted (onSpan s now sp e) = emitted e ++ new /\
    emissionsFor k new = [] /\
    get k (store (onSpan s now sp e))
    = Some (mergeSide sp r (newHalfEdge k (now + wait s))).
Proof.
  intros [Hu _] Hside Hget.
  rewrite (onSpan_fresh s now sp r k e) by assumption. simpl.
  destruct (emitted_roomFor k e Hu Hget) as (new & Hnew & Hfor).
  exists new. repeat split; try assumption.
  rewrite get_snoc, (get_roomFor_None s k e Hget). simpl.
  now rewrite decide_True.
Qed.

(** Arrival of a side whose other side is resident: the edge is completed,
    emitted once and removed. *)
Lemma onSpan_completes now sp r k e h :
  wf e -> sideOf sp r k -> get k (store e) = Some h ->
  sideService (otherRole r) h ≠ None ->
  exists edge,
    emitted (onSpan s now sp e) = emitted e ++ [(k, edge)] /\
    paired edge /\
    get k (store (onSpan s now sp e)) = None.
Proof.
  intros [Hu _] Hside Hget Hother.
  rewrite (onSpan_resident s now sp r k e h) by assumption.
  assert (Hkey : key h = k) by now apply get_In in Hget.
  assert (Hcomp : complete (mergeSide sp r h) = true).
  { destruct r; simpl in *.
    - now destruct (serverService h).
    - now destruct (clientService h). }
  rewrite Hcomp. simpl. rewrite Hkey.
  exists (snapshot s (mergeSide sp r h) false). repeat split.
  - destruct r; simpl in *; [discriminate|assumption].
  - destruct r; simpl in *; [assumption|discriminate].
  - apply get_delete_same. unfold unique_keys. now rewrite keys_set.
Qed.

(** Arrival of the first of two sides, whatever the store held for the key
    before: either the side is now resident and nothing was emitted for the
    key, or an earlier half-edge was completed by it. *)
Lemma onSpan_first now sp r k e :
  wf e -> sideOf sp r k ->
  exists new,
    emitted (onSpan s now sp e) = emitted e ++ new /\
    ((exists h, get k (store (onSpan s now sp e)) = Some h /\
                sideService r h ≠ None /\ emissionsFor k new = []) \/
     (get k (store (onSpan s now sp e)) = None /\
      exists edge, emissionsFor k new = [(k, edge)] /\ paired edge)).
Proof.
  intros Hwf Hside.
  destruct (get k (store e)) as [h|] eqn:Hget.
  - destruct (sideService (otherRole r) h) as [svc|] eqn:Hother.
    + destruct (onSpan_completes now sp r k e h Hwf Hside Hget)
        as (edge & Hem & Hpaired & Hgone); [congruence|].
      exists [(k, edge)]. split; [assumption|]. right.
      split; [assumption|]. exists edge. split; [|assumption].
      apply emissionsFor_same.
    + rewrite (onSpan_resident s now sp r k e h) by assumption.
      assert (Hkey : key h = k) by now apply get_In in Hget.
      assert (Hcomp : complete (mergeSide sp r h) = false).
      { destruct r; simpl in *; now rewrite Hother. }
      rewrite Hcomp. simpl. exists []. rewrite app_nil_r.
      split; [reflexivity|]. left.
      exists (mergeSide sp r h). repeat split.
      * rewrite <- Hkey, <- (key_mergeSide sp r h).
        apply get_set_same. rewrite key_mergeSide, Hkey. congruence.
      * now destruct r.
  - destruct (onSpan_creates now sp r k e Hwf Hside Hget)
      as (new & Hem & Hfor & Hres).
    exists new. split; [assumption|]. left.
    eexists. repeat split; [eassumption| |assumption].
    now destruct r.
Qed.

(** Two sides of one key arriving one after the other, in roles [r] and its
    opposite: exactly one edge is emitted for the key, and it is paired. *)
Lemma pair_emits_once r k a b ta tb e :
  wf e -> sideOf a r k -> sideOf b (otherRole r) k ->
  exists new edge,
    emitted (onSpan s tb b (onSpan s ta a e)) = emitted e ++ new /\
    emissionsFor k new = [(k, edge)] /\ paired edge.
Proof.
  intros Hwf Ha Hb.
  pose proof (onSpan_wf s ta a e Hwf) as Hwf1.
  destruct (onSpan_first ta a r k e Hwf Ha)
    as (new1 & Hem1 & [(h & Hres & Hside & Hfor)|(Hgone & edge & Hfor & Hp)]).
  - destruct (onSpan_completes tb b (otherRole r) k _ h Hwf1 Hb Hres)
      as (edge & Hem2 & Hpaired & _).
    { now rewrite otherRole_involutive. }
    exists (new1 ++ [(k, edge)]), edge.
    rewrite Hem2, Hem1, <- app_assoc. split; [reflexivity|].
    rewrite emissionsFor_app, Hfor, emissionsFor_same. now split.
  - destruct (onSpan_creates tb b (otherRole r) k _ Hwf1 Hb Hgone)
      as (new2 & Hem2 & Hfor2 & _).
    exists (new1 ++ new2), edge.
    rewrite Hem2, Hem1, <- app_assoc. split; [reflexivity|].
    rewrite emissionsFor_app, Hfor, Hfor2. now split.
Qed.

End CorrelatorFacts.

(** * Runs between the two sides of an edge *)

Section RunFacts.
Import EdgeStore.
Variable s : Settings.

Lemma emissionsFor_map_absent (f : HalfEdge -> CompletedEdge) k l :
  ~ In k (map key l) ->
  emissionsFor k (map (fun x => (key x, f x)) l) = [].
Proof.
  induction l as [|y l IH]; simpl; [reflexivity|].
  intros Hn. rewrite bool_decide_eq_false_2 by tauto. apply IH. tauto.
Qed.

Lemma roomFor_other_key k e : wf e -> untouchedOrEvicted s k e (roomFor s e).
Proof.
  intros [Hu _]. unfold untouchedOrEvicted, roomFor.
  destruct (governor (size (store e)) (maxItems s));
    try (exists []; rewrite app_nil_r; split; [reflexivity|now left]).
  rewrite emitted_makeRoom, store_makeRoom by assumption.
  destruct (oldest (store e)) as [o|] eqn:Ho;
    [|exists []; rewrite app_nil_r; split; [reflexivity|now left]].
  eexists. split; [reflexivity|].
  pose proof (get_of_In o (store e) Hu (oldest_In _ _ Ho)) as Hgo.
  destruct (decide (key o = k)) as [Heq|Hne].
  - right. exists o. rewrite <- Heq. split; [assumption|].
    split; [now apply get_delete_same|apply emissionsFor_same].
  - left. split; [now apply get_delete_other|now apply emissionsFor_other].
Qed.

Lemma sweep_other_key k now e : wf e -> untouchedOrEvicted s k e (sweep s now e).
Proof.
  intros [Hu _]. unfold untouchedOrEvicted.
  destruct (sweep_spec s now e Hu) as (Hem & _ & _ & _ & Hgone & Hkept & _).
  eexists. split; [exact Hem|].
  destruct (decide (k ∈ map key (snapshotExpired now (store e)))) as [Hin|Hout];
    rewrite list_elem_of_In in *.
  - right. pose proof Hin as Hin'.
    apply in_map_iff in Hin' as (h & Hkey & Hh).
    exists h. subst k. split.
    + apply get_of_In; [assumption|].
      now apply List.filter_In in Hh as [Hh _].
    + split; [now apply Hgone|].
      apply emissionsFor_map; [now apply NoDup_keys_filter|assumption].
  - left. split; [now apply Hkept|now apply emissionsFor_map_absent].
Qed.

Lemma onSpan_other_key k now sp e :
  wf e -> deriveKey sp ≠ Some k -> untouchedOrEvicted s k e (onSpan s now sp e).
Proof.
  intros Hwf Hsp. unfold untouchedOrEvicted.
  destruct (deriveKey_cases sp) as [Hk|(r & k' & Hside)].
  { rewrite onSpan_malformed by assumption.
    exists []. simpl. rewrite app_nil_r. split; [reflexivity|now left]. }
  assert (Hne : k' ≠ k) by (intros ->; now destruct Hside).
  destruct (get k' (store e)) as [h|] eqn:Hget.
  - rewrite (onSpan_resident s now sp r k' e h) by assumption.
    assert (Hkey : key h = k') by now apply get_In in Hget.
    destruct (complete (mergeSide sp r h)); simpl.
    + eexists. split; [reflexivity|]. left. split.
      * rewrite (get_delete_other k' k) by assumption.
        apply get_set_other. simpl. congruence.
      * apply emissionsFor_other. simpl. congruence.
    + exists []. rewrite app_nil_r. split; [reflexivity|]. left.
      split; [|reflexivity]. apply get_set_other. simpl. congruence.
  - rewrite (onSpan_fresh s now sp r k' e) by assumption.
    destruct (roomFor_other_key k e Hwf) as (new & Hem & Hcases).
    exists new. simpl. split; [exact Hem|].
    assert (Hsnoc : get k (store (roomFor s e)
                           ++ [mergeSide sp r (newHalfEdge k' (now + wait s))])
                    = get k (store (roomFor s e))).
    { rewrite get_snoc. destruct (get k (store (roomFor s e))); [reflexivity|].
      simpl. now rewrite decide_False. }
    rewrite Hsnoc. exact Hcases.
Qed.

Lemma step_other_key k e ev :
  wf e -> otherKey k ev -> untouchedOrEvicted s k e (step s e ev).
Proof.
  destruct ev as [now sp|now]; simpl; intros Hwf Hev.
  - now apply onSpan_other_key.
  - now apply sweep_other_key.
Qed.

(** Over a run that brings no span of key [k], the half-edge of [k] is
    either carried through unchanged, or evicted and emitted exactly once. *)
Lemma run_other_keys k evs :
  forall e, wf e -> Forall (otherKey k) evs ->
            untouchedOrEvicted s k e (run s evs e).
Proof.
  unfold untouchedOrEvicted.
  induction evs as [|ev evs IH]; intros e Hwf Hevs; simpl.
  { exists []. rewrite app_nil_r. split; [reflexivity|now left]. }
  apply Forall_cons in Hevs as [Hev Hevs].
  destruct (step_other_key k e ev Hwf Hev) as (new1 & Hem1 & Hc1).
  destruct (IH (step s e ev) (step_wf s e ev Hwf) Hevs)
    as (new2 & Hem2 & Hc2).
  fold (run s evs (step s e ev)) in *.
  exists (new1 ++ new2). rewrite Hem2, Hem1, <- app_assoc.
  split; [reflexivity|]. rewrite emissionsFor_app.
  destruct Hc1 as [[Hg1 Hf1]|(h & Hg1 & Hn1 & Hf1)];
    destruct Hc2 as [[Hg2 Hf2]|(h2 & Hg2 & Hn2 & Hf2)];
    rewrite Hf1, Hf2; simpl.
  - left. split; [congruence|reflexivity].
  - right. exists h2. repeat split; congruence.
  - right. exists h. repeat split; congruence.
  - congruence.
Qed.

(** A sweep at or before a half-edge's expiry leaves it alone. *)
Lemma sweep_keeps_unexpired k h now e :
  wf e -> get k (store e) = Some h -> now <= expiresAt h ->
  get k (store (sweep s now e)) = Some h /\
  exists new,
    emitted (sweep s now e) = emitted e ++ new /\ emissionsFor k new = [].
Proof.
  intros [Hu Hc] Hget Hnow.
  destruct (sweep_spec s now e Hu) as (Hem & _ & _ & _ & _ & Hkept & _).
  assert (Hout : ~ In k (map key (snapshotExpired now (store e)))).
  { intros Hin. apply in_map_iff in Hin as (h' & Hkey & Hh').
    apply List.filter_In in Hh' as [Hin' Hexp].
    pose proof (get_of_In h' (store e) Hu Hin') as Hget'.
    rewrite Hkey, Hget in Hget'. injection Hget' as ->.
    unfold expired in Hexp. apply Z.ltb_lt in Hexp. lia. }
  split; [rewrite Hkept; assumption|].
  eexists. split; [exact Hem|]. now apply emissionsFor_map_absent.
Qed.

Lemma emittedFor_app k evs e new :
  emitted (run s evs e) = emitted e ++ new ->
  emittedFor s k evs e = emissionsFor k new.
Proof.
  intros Hem. unfold emittedFor. rewrite Hem.
  now rewrite drop_app_length.
Qed.

End RunFacts.

(** C1, as stated, fails: the sample client span is swept after its expiry
    before the sample server span of the same key arrives.  By then the only
    edge emitted for the key is an incomplete one, the server side waits in
    the store, and after the next sweep two edges have been emitted for the
    key, both incomplete. *)
Lemma duplicate_edges_after_timeout :
  (exists h,
     emittedFor sampleSettings sampleKey runSweptBetween newEngine
     = [(sampleKey, snapshot sampleSettings h true)] /\
     EdgeStore.get sampleKey
       (store (run sampleSettings runSweptBetween newEngine)) <> None) /\
  length (emittedFor sampleSettings sampleKey runSweptTwice newEngine)
  = 2%nat /\
  Forall (fun em => ce_incomplete (snd em) = true)
    (emittedFor sampleSettings sampleKey runSweptTwice newEngine) /\
  ~ emitsOneEdge sampleSettings sampleKey runSweptTwice newEngine.
Proof.
  split; [|split; [|split]].
  - eexists. split; [reflexivity|]. vm_compute. discriminate.
  - reflexivity.
  - vm_compute. repeat constructor.
  - intros (edge & Hone). apply (f_equal (@length _)) in Hone.
    vm_compute in Hone. discriminate.
Qed.

(** C1, amended.  From any state the engine can be in, let a span of one
    role arrive, then any events that bring no span of its key, then a span
    of the opposite role with the same key.  If the half-edge the first
    span left is still resident when the second arrives, the engine has
    emitted exactly one edge for the key, a paired one.  If it was evicted
    in between (by the sweeper or by the capacity governor), the one edge
    emitted for the key so far is that half-edge, tagged incomplete, and the
    second span waits in the store unpaired. *)
Theorem no_duplicate_edges (s : Settings) (e : Engine) (k : CorrelationKey)
    (r : Role) (a b : Span) (ta tb : Z) (mid : list Event) :
  reachable s e ->
  sideOf a r k ->
  sideOf b (otherRole r) k ->
  Forall (otherKey k) mid ->
  let e1 := onSpan s ta a e in
  let e2 := run s mid e1 in
  let e3 := onSpan s tb b e2 in
  ((EdgeStore.get k (store e1) <> None ->
    EdgeStore.get k (store e2) <> None) ->
   exists new edge,
     emitted e3 = emitted e ++ new /\
     emissionsFor k new = [(k, edge)] /\ paired edge) /\
  (EdgeStore.get k (store e1) <> None ->
   EdgeStore.get k (store e2) = None ->
   exists new h,
     emitted e3 = emitted e ++ new /\
     emissionsFor k new = [(k, snapshot s h true)] /\
     EdgeStore.get k (store e3) <> None).
Proof.
  intros He Ha Hb Hmid e1 e2 e3. apply reachable_wf in He.
  pose proof (onSpan_wf s ta a e He) as Hwf1. fold e1 in Hwf1.
  pose proof (run_wf s mid e1 Hwf1) as Hwf2. fold e2 in Hwf2.
  destruct (onSpan_first s ta a r k e He Ha) as (new1 & Hem1 & Hfirst).
  fold e1 in Hem1, Hfirst.
  destruct (run_other_keys s k mid e1 Hwf1 Hmid) as (new2 & Hem2 & Hrun).
  fold e2 in Hem2, Hrun.
  split.
  - intros Hstay.
    destruct Hfirst as [(h & Hres & Hside & Hfor)|(Hgone & edge & Hfor & Hp)].
    + destruct Hrun as [[Hsame Hfor2]|(h2 & _ & Hnone & _)].
      * rewrite Hres in Hsame.
        destruct (onSpan_completes s tb b (otherRole r) k e2 h Hwf2 Hb Hsame)
          as (edge & Hem3 & Hpaired & _).
        { now rewrite otherRole_involutive. }
        exists (new1 ++ new2 ++ [(k, edge)]), edge. fold e3 in Hem3.
        rewrite Hem3, Hem2, Hem1, <- !app_assoc. split; [reflexivity|].
        rewrite !emissionsFor_app, Hfor, Hfor2, emissionsFor_same.
        now split.
      * exfalso. apply Hstay; [congruence|assumption].
    + destruct Hrun as [[Hsame Hfor2]|(h2 & Hsome & _)]; [|congruence].
      rewrite Hgone in Hsame.
      destruct (onSpan_creates s tb b (otherRole r) k e2 Hwf2 Hb Hsame)
        as (new3 & Hem3 & Hfor3 & _).
      exists (new1 ++ new2 ++ new3), edge. fold e3 in Hem3.
      rewrite Hem3, Hem2, Hem1, <- !app_assoc. split; [reflexivity|].
      rewrite !emissionsFor_app, Hfor, Hfor2, Hfor3. now split.
  - intros Hthere Hnone.
    destruct Hfirst as [(h & Hres & Hside & Hfor)|(Hgone & _)];
      [|contradiction].
    destruct Hrun as [[Hsame Hfor2]|(h2 & Hsome & _ & Hfor2)];
      [congruence|].
    destruct (onSpan_creates s tb b (otherRole r) k e2 Hwf2 Hb Hnone)
      as (new3 & Hem3 & Hfor3 & Hres3).
    exists (new1 ++ new2 ++ new3), h2. fold e3 in Hem3, Hres3.
    rewrite Hem3, Hem2, Hem1, <- !app_assoc. split; [reflexivity|].
    rewrite !emissionsFor_app, Hfor, Hfor2, Hfor3. split; [reflexivity|].
    rewrite Hres3. discriminate.
Qed.

(** * Properties of the emitter *)

Section EmitterFacts.
Variable s : Settings.

Lemma counter_app o a b :
  counter o (a ++ b) = (counter o a + counter o b)%nat.
Proof. unfold counter. now rewrite List.filter_app, length_app. Qed.

Lemma counter_cons o x l :
  counter o (x :: l) = ((if bool_decide (x = o) then 1 else 0) + counter o l)%nat.
Proof. unfold counter. simpl. now destruct (bool_decide (x = o)). Qed.

Lemma counter_nil o : counter o [] = 0%nat.
Proof. reflexivity. Qed.

Lemma observations_incomplete h :
  observations (snapshot s h true) =
  [RequestCount (clientService h) (serverService h) (protocol h)
     (classify s (protocol h) (statusCode h));
   IncompleteEdge].
Proof. reflexivity. Qed.

(** Evictions bump the incomplete-edge counter once each and leave the
    overflow counter and the latency series alone. *)
Lemma counter_evictions o l :
  (forall cl sv p b, o <> RequestCount cl sv p b) ->
  counter o (flat_map (fun h => observations (snapshot s h true)) l) =
  if bool_decide (IncompleteEdge = o) then length l else 0%nat.
Proof.
  intros Ho. induction l as [|h l IH]; simpl.
  - now destruct (bool_decide (IncompleteEdge = o)).
  - rewrite !counter_cons, IH.
    rewrite (bool_decide_eq_false_2 (RequestCount _ _ _ _ = o))
      by (intros Heq; eapply Ho; eauto).
    now destruct (bool_decide (IncompleteEdge = o)).
Qed.

(** An emission is counted in the success class its edge carries. *)
Lemma countedAs_iff b edge reg : countedAs b edge reg <-> ce_success edge = b.
Proof.
  unfold countedAs, emit, observations. cbv zeta.
  rewrite !counter_app, !counter_cons.
  assert (Hrest : forall o : bool,
    counter
      (RequestCount (ce_client edge) (ce_server edge) (ce_protocol edge) o)
      (if ce_incomplete edge then [IncompleteEdge]
       else match ce_latency edge with
            | Some d => [LatencySample (ce_client edge) (ce_server edge) d]
            | None => []
            end) = 0%nat).
  { intros o. destruct (ce_incomplete edge); [reflexivity|].
    now destruct (ce_latency edge). }
  rewrite !Hrest.
  destruct (ce_success edge), b; simpl;
    repeat (rewrite bool_decide_eq_true_2 by reflexivity);
    repeat (rewrite bool_decide_eq_false_2 by discriminate);
    (split;
     [intros [H1 H2]; first [reflexivity | lia]
     |intros H; first [discriminate | split; lia]]).
Qed.

Lemma classify_http c :
  classify s HTTP (Some c) = true <-> c ∈ httpSuccessCodes s.
Proof. simpl. apply bool_decide_eq_true. Qed.

Lemma classify_grpc c :
  classify s GRPC (Some c) = true <-> c ∈ grpcSuccessCodes s.
Proof. simpl. apply bool_decide_eq_true. Qed.

End EmitterFacts.

(** The sets built at startup hold exactly the configured codes. *)
Lemma newSettings_codes (cfg : Config) (sc : successCodes) (c : Z) :
  SuccessCodes cfg = addr_of sc ->
  (c ∈ httpSuccessCodes (newSettings cfg) <-> In c (http sc)) /\
  (c ∈ grpcSuccessCodes (newSettings cfg) <-> In c (grpc sc)).
Proof.
  intros Hsc. unfold newSettings. simpl. rewrite Hsc. unfold addr_of.
  rewrite !elem_of_list_to_set, !list_elem_of_In. tauto.
Qed.

(** * Timeout emission *)

(** C3, as stated, fails: with a capacity of two, the half-edge of the
    first of three unmatched client spans is created at time 0 and no span
    of its key arrives afterwards, but the capacity governor evicts it when
    the third span arrives.  The sweep run after its expiry then finds
    nothing to evict: it emits nothing and the size stays. *)
Lemma timeout_preempted_by_overflow :
  let s := sampleSettings in
  let k := mkKey "T" "a" in
  let e1 := onSpan s 0 (clientOf "T" "a") newEngine in
  let later := arrivals (tl sampleArrivals) in
  let e2 := run s later e1 in
  EdgeStore.get k (store newEngine) = None /\
  EdgeStore.get k (store e1) <> None /\
  Forall (otherKey k) later /\
  0 + wait s < DefaultWait + 1 /\
  sweep s (DefaultWait + 1) e2 = e2 /\
  ~ sweeperEvicts s k (DefaultWait + 1) e2.
Proof.
  cbv zeta. split; [reflexivity|]. split; [vm_compute; discriminate|].
  split; [repeat constructor; vm_compute; discriminate|].
  split; [reflexivity|]. split; [reflexivity|].
  intros [_ Hsize]. vm_compute in Hsize. discriminate.
Qed.

(** C3, amended.  A span of role [r] that arrives at time [T] for a key that
    is not resident creates a half-edge with that side only, expiring at
    [T + wait].  Let any events follow that bring no span of its key, and
    then a sweep at a time after [T + wait].  After that sweep the key is
    not in the store and exactly one edge has been emitted for it since its
    creation, that half-edge tagged incomplete.  If the half-edge is still
    resident when the sweep starts, it is the sweeper that evicts it, in a
    step of the sweep that takes the size down by one; and no sweep at or
    before [T + wait] evicts it.  It can be gone before only because it was
    evicted in between, by the capacity governor making room or by an
    earlier sweep after its expiry. *)
Theorem timeout_emission (s : Settings) (e0 : Engine) (T : Z) (sp : Span)
    (r : Role) (k : CorrelationKey) (mid : list Event) (now : Z) :
  reachable s e0 ->
  sideOf sp r k ->
  EdgeStore.get k (store e0) = None ->
  Forall (otherKey k) mid ->
  T + wait s < now ->
  let e1 := onSpan s T sp e0 in
  let e2 := run s mid e1 in
  let e3 := sweep s now e2 in
  exists h,
    EdgeStore.get k (store e1) = Some h /\
    expiresAt h = T + wait s /\
    complete h = false /\
    sideService r h ≠ None /\
    sideService (otherRole r) h = None /\
    EdgeStore.get k (store e3) = None /\
    (exists new,
       emitted e3 = emitted e1 ++ new /\
       emissionsFor k new = [(k, snapshot s h true)]) /\
    ce_incomplete (snapshot s h true) = true /\
    (EdgeStore.get k (store e2) = Some h \/
     EdgeStore.get k (store e2) = None) /\
    (EdgeStore.get k (store e2) = Some h ->
     let old := EdgeStore.snapshotExpired now (store e2) in
     In h old /\
     (EdgeStore.size (store e3) + length old
      = EdgeStore.size (store e2))%nat /\
     counter IncompleteEdge (registry e3)
     = (counter IncompleteEdge (registry e2) + length old)%nat /\
     exists before after,
       map key old = before ++ k :: after /\
       let eb := evictAll s before e2 in
       let ea := evict s k eb in
       e3 = evictAll s after ea /\
       S (EdgeStore.size (store ea)) = EdgeStore.size (store eb) /\
       emitted ea = emitted eb ++ [(k, snapshot s h true)]) /\
    (forall early,
       early <= T + wait s ->
       EdgeStore.get k (store e2) = Some h ->
       EdgeStore.get k (store (sweep s early e2)) = Some h /\
       exists new,
         emitted (sweep s early e2) = emitted e2 ++ new /\
         emissionsFor k new = []).
Proof.
  intros He0 Hside Hfresh Hmid Hnow e1 e2 e3.
  pose proof (reachable_wf s e0 He0) as Hwf0.
  pose proof (onSpan_wf s T sp e0 Hwf0) as Hwf1. fold e1 in Hwf1.
  pose proof (run_wf s mid e1 Hwf1) as Hwf2. fold e2 in Hwf2.
  destruct (onSpan_creates s T sp r k e0 Hwf0 Hside Hfresh)
    as (new0 & _ & _ & Hres).
  fold e1 in Hres.
  set (h := mergeSide sp r (newHalfEdge k (T + wait s))) in *.
  assert (Hexp : expiresAt h = T + wait s) by reflexivity.
  exists h. split; [exact Hres|]. split; [exact Hexp|].
  split; [apply complete_merge_new|].
  split; [now destruct r|]. split; [now destruct r|].
  destruct (run_other_keys s k mid e1 Hwf1 Hmid) as (new2 & Hem2 & Hrun).
  fold e2 in Hem2, Hrun. rewrite Hres in Hrun.
  destruct Hwf2 as [Hu2 Hc2].
  destruct (sweep_spec s now e2 Hu2)
    as (Hem3 & Hreg3 & Hlen3 & _ & Hgone3 & Hkept3 & _).
  fold e3 in Hem3, Hreg3, Hlen3, Hgone3, Hkept3.
  assert (Hold : EdgeStore.get k (store e2) = Some h ->
                 In h (EdgeStore.snapshotExpired now (store e2))).
  { intros Hget. destruct (get_In _ _ _ Hget) as [Hin _].
    apply List.filter_In. split; [assumption|].
    unfold EdgeStore.expired. apply Z.ltb_lt. lia. }
  assert (Hkey : key h = k) by reflexivity.
  assert (Hsplit : EdgeStore.get k (store e2) = Some h \/
                   EdgeStore.get k (store e2) = None).
  { destruct Hrun as [[Hsame _]|(h2 & _ & Hnone & _)]; auto. }
  split; [|split; [|split; [reflexivity|split; [exact Hsplit|split]]]].
  - destruct Hsplit as [Hget|Hnone].
    + apply Hgone3. rewrite <- Hkey. apply in_map. auto.
    + destruct (sweep_other_key s k now e2 (conj Hu2 Hc2))
        as (new3 & _ & [[Hsame _]|(h3 & Hsome & _)]); unfold e3;
        congruence.
  - exists (new2 ++ map (fun x => (key x, snapshot s x true))
                      (EdgeStore.snapshotExpired now (store e2))).
    rewrite Hem3, Hem2, <- app_assoc. split; [reflexivity|].
    rewrite emissionsFor_app.
    destruct Hrun as [[Hsame Hfor2]|(h2 & Hsome & Hnone & Hfor2)].
    + rewrite Hfor2. simpl. rewrite <- Hkey.
      apply emissionsFor_map; [now apply NoDup_keys_filter|auto].
    + injection Hsome as <-. rewrite Hfor2.
      rewrite emissionsFor_map_absent; [reflexivity|].
      intros Hin. apply in_map_iff in Hin as (h' & Hk' & Hh').
      apply List.filter_In in Hh' as [Hin' _].
      pose proof (get_of_In h' (store e2) Hu2 Hin') as Hget'.
      congruence.
  - intros Hget old. specialize (Hold Hget). fold old in Hold.
    split; [exact Hold|]. split; [exact Hlen3|]. split.
    + rewrite Hreg3, counter_app, counter_evictions by discriminate.
      now rewrite bool_decide_eq_true_2.
    + rewrite <- Hkey. now apply sweep_evicts_key.
  - intros early Hearly Hget.
    apply (sweep_keeps_unexpired s k h early e2 (conj Hu2 Hc2) Hget).
    rewrite Hexp. exact Hearly.
Qed.

(** * Capacity bound *)

Section CapacityFacts.
Import EdgeStore.
Variable s : Settings.
Hypothesis capacity_positive : 1 <= maxItems s.

Lemma length_delete_le k st : (length (delete k st) <= length st)%nat.
Proof.
  induction st as [|h rest IH]; simpl; [lia|].
  destruct (decide (key h = k)); simpl; lia.
Qed.

(** Insertion of a new key into a store within its capacity: the size grows
    by one below the capacity; at the capacity the oldest half-edge is
    evicted, emitted once as incomplete, and the size stays. *)
Lemma onSpan_fresh_account now sp r k e :
  wf e ->
  (length (store e) <= Z.to_nat (maxItems s))%nat ->
  sideOf sp r k -> get k (store e) = None ->
  let e1 := onSpan s now sp e in
  let over := (length (store e) + 1 - Z.to_nat (maxItems s))%nat in
  length (store e1)
  = Nat.min (length (store e) + 1) (Z.to_nat (maxItems s)) /\
  length (emitted e1) = (length (emitted e) + over)%nat /\
  counter Overflow (registry e1) = (counter Overflow (registry e) + over)%nat /\
  (Forall (fun em => ce_incomplete (snd em) = true) (emitted e) ->
   Forall (fun em => ce_incomplete (snd em) = true) (emitted e1)) /\
  (forall k', k' <> k -> get k' (store e) = None ->
              get k' (store e1) = None).
Proof.
  intros [Hu Hc] Hlen Hside Hget e1 over. subst e1 over.
  rewrite (onSpan_fresh s now sp r k e) by assumption.
  assert (Hother : forall k', k' <> k -> get k' (store e) = None ->
            get k' (store (roomFor s e)
                    ++ [mergeSide sp r (newHalfEdge k (now + wait s))])
            = None).
  { intros k' Hne Hk'. rewrite get_snoc, (get_roomFor_None s k' e Hk').
    simpl. now rewrite decide_False. }
  unfold roomFor, governor in *. unfold size in *.
  destruct (Z.ltb_spec (Z.of_nat (length (store e))) (maxItems s)) as [Hlt|Hge];
    simpl.
  - rewrite length_app. simpl. repeat split; auto; lia.
  - destruct (oldest (store e)) as [o|] eqn:Ho.
    2:{ apply oldest_None in Ho. rewrite Ho in Hge. simpl in Hge. lia. }
    pose proof (get_of_In o (store e) Hu (oldest_In _ _ Ho)) as Hgo.
    pose proof (length_delete _ _ _ Hgo) as Hdel.
    rewrite store_makeRoom, emitted_makeRoom, registry_makeRoom, Ho
      by assumption.
    rewrite !length_app, counter_app, !counter_cons. simpl.
    rewrite store_makeRoom, Ho in Hother.
    assert (Hnone : counter Overflow (observations (snapshot s o true))
                    = 0%nat) by reflexivity.
    rewrite Hnone.
    repeat split; auto; try lia.
    intros Hall. apply Forall_app. split; [assumption|].
    constructor; [reflexivity|constructor].
Qed.

(** The store never holds more than [maxItems] half-edges. *)
Lemma size_bound e :
  reachable s e -> Z.of_nat (size (store e)) <= maxItems s.
Proof.
  unfold size.
  induction 1 as [|e ev He IH]; [simpl; lia|].
  pose proof (reachable_wf s e He) as Hwf.
  destruct ev as [now sp|now]; simpl.
  - destruct (deriveKey_cases sp) as [Hk|(r & k & Hside)].
    { now rewrite onSpan_malformed. }
    destruct (get k (store e)) as [h|] eqn:Hget.
    + rewrite (onSpan_resident s now sp r k e h) by assumption.
      destruct (complete (mergeSide sp r h)); simpl.
      * pose proof (length_delete_le k (set (mergeSide sp r h) (store e))).
        rewrite length_set in *. lia.
      * rewrite length_set. lia.
    + destruct (onSpan_fresh_account now sp r k e Hwf) as (Hlen & _);
        try assumption; lia.
  - destruct Hwf as [Hu _].
    destruct (sweep_spec s now e Hu) as (_ & _ & Hlen & _). lia.
Qed.

(** A run of arrivals with distinct keys, none resident at the start. *)
Lemma run_fresh_arrivals (l : list (Z * Span)) :
  forall e,
    wf e ->
    (length (store e) <= Z.to_nat (maxItems s))%nat ->
    NoDup (map (fun p => deriveKey (snd p)) l) ->
    Forall (fun p => deriveKey (snd p) ≠ None) l ->
    (forall p k, In p l -> deriveKey (snd p) = Some k ->
                 get k (store e) = None) ->
    let e' := run s (arrivals l) e in
    let over :=
      (length (store e) + length l - Z.to_nat (maxItems s))%nat in
    length (store e')
    = Nat.min (length (store e) + length l) (Z.to_nat (maxItems s)) /\
    length (emitted e') = (length (emitted e) + over)%nat /\
    counter Overflow (registry e')
    = (counter Overflow (registry e) + over)%nat /\
    (Forall (fun em => ce_incomplete (snd em) = true) (emitted e) ->
     Forall (fun em => ce_incomplete (snd em) = true) (emitted e')).
Proof.
  induction l as [|p l IH]; intros e Hwf Hlen Hnd Hok Hfresh; simpl.
  { repeat split; auto; lia. }
  apply NoDup_cons in Hnd as [Hnotin Hnd].
  rewrite list_elem_of_In in Hnotin.
  apply Forall_cons in Hok as [Hp Hok].
  destruct (deriveKey_cases (snd p)) as [Hk|(r & k & Hside)]; [contradiction|].
  assert (Hget : get k (store e) = None).
  { apply (Hfresh p k); [now left|apply Hside]. }
  destruct (onSpan_fresh_account (fst p) (snd p) r k e Hwf Hlen Hside Hget)
    as (Hlen1 & Hem1 & Hov1 & Hinc1 & Hother).
  destruct (IH (onSpan s (fst p) (snd p) e)) as (Hlen2 & Hem2 & Hov2 & Hinc2).
  - now apply onSpan_wf.
  - lia.
  - assumption.
  - assumption.
  - intros p' k' Hin Hk'. apply Hother.
    + intros ->. apply Hnotin. destruct Hside as [_ Hk]. rewrite Hk, <- Hk'.
      now apply (in_map (fun p => deriveKey (snd p))).
    + apply (Hfresh p' k'); [now right|assumption].
  - unfold arrivals, run in *. simpl.
    repeat split; auto; lia.
Qed.

(** With a capacity of at least 1, for every sequence of arrivals of
    well-formed spans with distinct keys: after any part of the run the
    store's size is at most [maxItems], and the inserts beyond the bound are
    matched one for one by eviction emissions and by overflow counts. *)
Lemma capacity_bound (l : list (Z * Span)) :
  NoDup (map (fun p => deriveKey (snd p)) l) ->
  Forall (fun p => deriveKey (snd p) ≠ None) l ->
  capacityBound s l.
Proof.
  intros Hnd Hok. unfold capacityBound. cbv zeta.
  destruct (run_fresh_arrivals l newEngine) as (_ & Hem & Hov & Hinc);
    try assumption.
  { split; [apply NoDup_nil_2|constructor]. }
  { simpl. lia. }
  { reflexivity. }
  simpl in Hem, Hov.
  split; [|split; [exact Hem|split; [apply Hinc; constructor|exact Hov]]].
  intros evs rest _. apply size_bound.
  apply run_reachable. constructor.
Qed.

End CapacityFacts.

Lemma orDefault_positive (configured fallback : Z) :
  0 <= configured -> 1 <= fallback -> 1 <= orDefault configured fallback.
Proof.
  intros Hc Hf. unfold orDefault.
  destruct (Z.eqb_spec configured 0); lia.
Qed.

(** C2.  For every configuration whose [MaxItems] is a capacity (not
    negative; 0, as in the configuration [createDefaultConfig] makes, stands
    for the default 10,000) and every sequence of inserts of distinct
    unmatched keys, longer than the capacity or not: the store's size never
    exceeds the capacity at any point of the run, and each admitted insert
    beyond the bound corresponds to exactly one eviction emission. *)
Theorem capacity_bound_configured (cfg : Config) (l : list (Z * Span)) :
  0 <= MaxItems cfg ->
  NoDup (map (fun p => deriveKey (snd p)) l) ->
  Forall (fun p => deriveKey (snd p) ≠ None) l ->
  capacityBound (newSettings cfg) l /\
  maxItems (newSettings cfg)
  = (if MaxItems cfg =? 0 then 10000 else MaxItems cfg).
Proof.
  intros Hcap Hnd Hok. split; [|reflexivity].
  apply capacity_bound; [|assumption|assumption].
  apply orDefault_positive; [assumption|].
  unfold DefaultMaxItems. lia.
Qed.

(** * Success classification *)

(** C4.  For every edge handed to the emitter whose half-edge carries status
    [c]: with protocol HTTP the request is counted in the success class iff
    [c] is in the configured HTTP set and in the error class iff it is not;
    likewise for gRPC and the gRPC set.  With the HTTP set configured as
    {200, 301}, status 200 is counted as success and 404 as error. *)
Theorem success_classification (s : Settings) (h : HalfEdge)
    (incomplete : bool) (reg : list Observation) (c : Z) :
  statusCode h = Some c ->
  let edge := snapshot s h incomplete in
  (protocol h = HTTP ->
     (countedAs true edge reg <-> c ∈ httpSuccessCodes s) /\
     (countedAs false edge reg <-> c ∉ httpSuccessCodes s)) /\
  (protocol h = GRPC ->
     (countedAs true edge reg <-> c ∈ grpcSuccessCodes s) /\
     (countedAs false edge reg <-> c ∉ grpcSuccessCodes s)) /\
  (forall cfg gs,
     s = newSettings cfg ->
     SuccessCodes cfg = addr_of {| http := [200; 301]; grpc := gs |} ->
     protocol h = HTTP ->
     (c = 200 -> countedAs true edge reg) /\
     (c = 404 -> countedAs false edge reg)).
Proof.
  intros Hst edge.
  assert (Hhttp : protocol h = HTTP ->
    (countedAs true edge reg <-> c ∈ httpSuccessCodes s) /\
    (countedAs false edge reg <-> c ∉ httpSuccessCodes s)).
  { intros Hp. rewrite !countedAs_iff. subst edge. simpl.
    rewrite Hp, Hst. simpl.
    split; [apply bool_decide_eq_true|apply bool_decide_eq_false]. }
  split; [exact Hhttp|]. split.
  - intros Hp. rewrite !countedAs_iff. subst edge. simpl.
    rewrite Hp, Hst. simpl.
    split; [apply bool_decide_eq_true|apply bool_decide_eq_false].
  - intros cfg gs -> Hcfg Hp.
    destruct (Hhttp Hp) as [Hyes Hno].
    pose proof (newSettings_codes cfg _ c Hcfg) as [Hset _]. simpl in Hset.
    split; intros ->.
    + apply Hyes, Hset. tauto.
    + apply Hno. rewrite Hset. intros [|[|[]]]; discriminate.
Qed.

(** From a [Config] value whose [SuccessCodes] is populated, the sets built
    at startup hold exactly the listed codes (none when the pointer is nil),
    and an emitted edge is classified as success exactly when its status is
    a listed code of its protocol. *)
Lemma success_codes_configurable (cfg : Config) :
  let s := newSettings cfg in
  (forall c, c ∈ httpSuccessCodes s <-> In c (configuredHTTP cfg)) /\
  (forall c, c ∈ grpcSuccessCodes s <-> In c (configuredGRPC cfg)) /\
  (forall h incomplete,
     ce_success (snapshot s h incomplete) = true <->
     (protocol h = HTTP /\
      exists c, statusCode h = Some c /\ In c (configuredHTTP cfg)) \/
     (protocol h = GRPC /\
      exists c, statusCode h = Some c /\ In c (configuredGRPC cfg))).
Proof.
  cbv zeta.
  assert (Hh : forall c, c ∈ httpSuccessCodes (newSettings cfg)
                         <-> In c (configuredHTTP cfg)).
  { intros c. unfold configuredHTTP, newSettings. simpl.
    destruct (SuccessCodes cfg); simpl.
    - now rewrite elem_of_list_to_set, list_elem_of_In.
    - rewrite elem_of_empty. tauto. }
  assert (Hg : forall c, c ∈ grpcSuccessCodes (newSettings cfg)
                         <-> In c (configuredGRPC cfg)).
  { intros c. unfold configuredGRPC, newSettings. simpl.
    destruct (SuccessCodes cfg); simpl.
    - now rewrite elem_of_list_to_set, list_elem_of_In.
    - rewrite elem_of_empty. tauto. }
  split; [exact Hh|]. split; [exact Hg|].
  intros h incomplete. simpl. unfold classify.
  destruct (protocol h), (statusCode h) as [c|];
    rewrite ?bool_decide_eq_true, ?Hh, ?Hg;
    (split;
     [intros Hin;
      first [discriminate Hin
            |left; split; [reflexivity|];
             exists c; split; [reflexivity|assumption]
            |right; split; [reflexivity|];
             exists c; split; [reflexivity|assumption]]
     |intros [(Hp & c0 & Hc & Hin)|(Hp & c0 & Hc & Hin)];
      first [discriminate Hp | discriminate Hc
            |injection Hc as <-; assumption]]).
Qed.

(** C8, on the code.  The codes given in configuration do not reach the
    classification: the [http] and [grpc] fields of [successCodes] are
    unexported, unlike every field of [Config], so the decoder skips them.
    Whatever the [success_codes] entry lists, the decoded [successCodes]
    holds two empty lists, the sets built from it are empty, and every
    status is classified as an error; so it is for the entry that lists
    HTTP codes 200 and 301. *)
Theorem success_codes_never_decoded (input : gmap string (list Z))
    (wt mx wk : Z) :
  let cfg := {| Wait := wt; MaxItems := mx; Workers := wk;
                SuccessCodes := addr_of (decode_successCodes input) |} in
  forallb (fun f => exported (fieldName f)) Config_fields = true /\
  exported (fieldName successCodes_http) = false /\
  exported (fieldName successCodes_grpc) = false /\
  decode_successCodes input = {| http := []; grpc := [] |} /\
  httpSuccessCodes (newSettings cfg) = ∅ /\
  grpcSuccessCodes (newSettings cfg) = ∅ /\
  (forall p status, classify (newSettings cfg) p status = false) /\
  sampleCodesInput !! "http"%string = Some [200; 301] /\
  http (decode_successCodes sampleCodesInput) = [].
Proof.
  cbv zeta.
  assert (Hdec : decode_successCodes input = {| http := []; grpc := [] |})
    by reflexivity.
  repeat split; try reflexivity.
  intros p status. unfold classify, newSettings. simpl.
  destruct p, status as [c|]; try reflexivity;
    apply bool_decide_eq_false; apply not_elem_of_empty.
Qed.

(** * The properties at the sample inputs *)

(** The sample client and server spans of key [sampleKey], with an
    unrelated span and an early sweep in between. *)
Lemma no_duplicate_edges_witness :
  exists new edge,
    emitted
      (run sampleSettings
         [Arrive 0 clientA; Arrive 1 (clientOf "T" "a"); Tick 2;
          Arrive 5 (serverB 200)] newEngine)
    = emitted newEngine ++ new /\
    emissionsFor sampleKey new = [(sampleKey, edge)] /\ paired edge.
Proof.
  destruct (no_duplicate_edges sampleSettings newEngine sampleKey Client
              clientA (serverB 200) 0 5
              [Arrive 1 (clientOf "T" "a"); Tick 2]) as [Hstay _].
  - apply reachable_new.
  - split; reflexivity.
  - split; reflexivity.
  - repeat constructor. vm_compute. discriminate.
  - apply Hstay. intros _. vm_compute. discriminate.
Defined.

(** A lone client span arriving at time 0 with a wait of ten seconds,
    followed by an unrelated span and an early sweep, is swept one
    nanosecond after its expiry. *)
Lemma timeout_emission_witness :
  let e1 := onSpan sampleSettings 0 clientA newEngine in
  let e2 := run sampleSettings [Arrive 1 (clientOf "T" "a"); Tick 2] e1 in
  let e3 := sweep sampleSettings (DefaultWait + 1) e2 in
  EdgeStore.get sampleKey (store e3) = None /\
  exists h new,
    emitted e3 = emitted e1 ++ new /\
    emissionsFor sampleKey new = [(sampleKey, snapshot sampleSettings h true)].
Proof.
  cbv zeta.
  destruct (timeout_emission sampleSettings newEngine 0 clientA Client
              sampleKey [Arrive 1 (clientOf "T" "a"); Tick 2]
              (DefaultWait + 1))
    as (h & _ & _ & _ & _ & _ & Hgone & (new & Hem & Hfor) & _).
  - apply reachable_new.
  - split; reflexivity.
  - reflexivity.
  - repeat constructor. vm_compute. discriminate.
  - reflexivity.
  - split; [exact Hgone|]. exists h, new. split; [exact Hem|exact Hfor].
Defined.

(** Three unmatched client spans against a capacity of two, and against
    the capacity of the default configuration. *)
Example capacity_bound_sample : capacityBound sampleSettings sampleArrivals.
Proof.
  apply capacity_bound.
  - vm_compute. discriminate.
  - apply (bool_decide_unpack _). vm_compute. exact I.
  - repeat constructor; discriminate.
Qed.

Lemma capacity_bound_configured_witness :
  capacityBound (newSettings zero_Config) sampleArrivals /\
  maxItems (newSettings zero_Config) = 10000.
Proof.
  apply (capacity_bound_configured zero_Config sampleArrivals).
  - vm_compute. discriminate.
  - apply (bool_decide_unpack _). vm_compute. exact I.
  - repeat constructor; discriminate.
Defined.

(** The sample edge with HTTP status 200 is counted as a success. *)
Lemma success_classification_witness :
  countedAs true (snapshot sampleSettings (sampleHalfEdge 200) false) [].
Proof.
  apply (proj1 (proj2 (proj2
           (success_classification sampleSettings (sampleHalfEdge 200) false
              [] 200 eq_refl))
           sampleConfig [0] eq_refl eq_refl eq_refl)).
  reflexivity.
Defined.

(** The concrete scenarios: the pair of sample spans, in either order, yields
    one edge from "A" to "B" with a latency of 5 ms, classified by the
    server's status; a lone client span yields, after the wait, one
    incomplete edge and no latency sample. *)
Example scenario_pair_success :
  let e := onSpan sampleSettings 5 (serverB 200)
             (onSpan sampleSettings 0 clientA newEngine) in
  store e = [] /\
  map snd (emitted e) =
    [{| ce_client := Some "A"%string; ce_server := Some "B"%string;
        ce_latency := Some (5 * time.Millisecond);
        ce_status := Some 200; ce_protocol := HTTP;
        ce_success := true; ce_incomplete := false |}] /\
  counter (RequestCount (Some "A"%string) (Some "B"%string) HTTP true)
    (registry e) = 1%nat /\
  e = onSpan sampleSettings 5 clientA
        (onSpan sampleSettings 0 (serverB 200) newEngine).
Proof. repeat split. Qed.

Example scenario_pair_error :
  let e := onSpan sampleSettings 5 clientA
             (onSpan sampleSettings 0 (serverB 404) newEngine) in
  map (fun em => ce_success (snd em)) (emitted e) = [false] /\
  counter (RequestCount (Some "A"%string) (Some "B"%string) HTTP false)
    (registry e) = 1%nat /\
  counter (RequestCount (Some "A"%string) (Some "B"%string) HTTP true)
    (registry e) = 0%nat.
Proof. repeat split. Qed.

Example scenario_lone_client :
  let e := run sampleSettings
             [Arrive 0 clientA; Tick (DefaultWait + 1)] newEngine in
  store e = [] /\
  map (fun em => ce_incomplete (snd em)) (emitted e) = [true] /\
  registry e = [RequestCount (Some "A"%string) None HTTP false;
                IncompleteEdge].
Proof. repeat split. Qed.

(** * The factory as a whole *)

Section FactoryComposition.
Variables (context_Context CreateSettings : Type).
Variables (consumer_Traces processor_Traces : Type).
Variable newProcessor : consumer_Traces -> ptr Config -> processor_Traces.

Local Abbreviation theFactory :=
  (NewFactory context_Context CreateSettings consumer_Traces
     processor_Traces newProcessor tt).

(** The factory that [NewFactory] returns is consistent with itself: it
    offers a traces constructor, at undefined stability, and that
    constructor accepts the configuration the factory's own default-config
    function makes: the call returns, with the processor [newProcessor]
    builds from the pointer to the zero [Config] and with a nil error. *)
Theorem NewFactory_accepts_own_default
    (ctx : context_Context) (set : CreateSettings) (next : consumer_Traces) :
  exists create,
    createTracesFunc _ _ _ _ theFactory = Some create /\
    tracesStabilityLevel _ _ _ _ theFactory = StabilityLevelUndefined /\
    create ctx set (CreateDefaultConfigFunc _ _ _ _ theFactory tt) next
    = Returned (newProcessor next (addr_of zero_Config), nil_error).
Proof.
  eexists. split; [reflexivity|]. split; reflexivity.
Qed.
End FactoryComposition.

(** * The mock journal reader *)

Section JournalMockFacts.
Import JournalMock.
Variable testing_T : Type.
Variable reportFailure : testing_T -> string -> testing_T.

Lemma foldl_insert_pairs (l : list (string * string)) :
  forall acc : gmap string string,
    foldl (fun m kv => <[kv.1 := kv.2]> m) acc l
    = list_to_map (reverse l) ∪ acc.
Proof.
  induction l as [|[k v] l IH]; intros acc; simpl.
  - now rewrite (left_id_L ∅ (∪)).
  - rewrite IH, reverse_cons, list_to_map_app. simpl.
    rewrite <- (assoc_L (∪)). f_equal.
    rewrite insert_empty. now rewrite insert_union_singleton_l.
Qed.

(** The copy loop rebuilds the map it ranges over, whatever the order of
    the iteration. *)
Lemma copyFields_range (fields : go_map) (visit : list (string * string)) :
  rangeOver fields visit -> copyFields visit = pairsOf fields.
Proof.
  unfold rangeOver, copyFields. intros Hvisit.
  rewrite foldl_insert_pairs, (right_id_L ∅ (∪)).
  symmetry. apply list_to_map_flip.
  now rewrite reverse_Permutation, Hvisit.
Qed.

(** [Write] hands the formatter an entry that carries exactly the pairs of
    [fields], in a map that is not nil even when [fields] is, whatever the
    order in which the range loop went through them, and with both
    timestamps set to the clock reading (as a uint64; a reading that is not
    negative is stored unchanged).  What the call then does is what
    [assert.NoError] does with the formatter's error: it returns with the
    test handle untouched when there is none; with an error it reports the
    failure on the handle, and panics when the handle is nil, as it is in a
    reader fresh from [newMockJournalReader]. *)
Theorem Write_formats_the_given_fields
    (r : mockJournalReader testing_T) (fields : go_map)
    (visit : list (string * string)) (now : Z)
    (format : ptr sdjournal.JournalEntry -> string * error) :
  sdjournal.Formatter (config _ r) = Some format ->
  rangeOver fields visit ->
  let entry :=
    {| sdjournal.Fields := Some (pairsOf fields);
       sdjournal.Cursor := EmptyString;
       sdjournal.RealtimeTimestamp := uint64 now;
       sdjournal.MonotonicTimestamp := uint64 now |} in
  let err := (format (addr_of entry)).2 in
  Write _ reportFailure r visit now
  = assert_NoError _ reportFailure (t _ r) err /\
  (err = None -> Write _ reportFailure r visit now = Returned (t _ r)) /\
  (forall msg handle,
     err = Some msg -> t _ r = Some handle ->
     Write _ reportFailure r visit now
     = Returned (Some (reportFailure handle msg))) /\
  (forall msg,
     err = Some msg -> t _ r = None ->
     panics (Write _ reportFailure r visit now) = true) /\
  (0 <= now < 2 ^ 63 -> uint64 now = now).
Proof.
  intros Hf Hvisit entry err.
  assert (Hw : Write _ reportFailure r visit now
               = assert_NoError _ reportFailure (t _ r) err).
  { unfold Write, writtenEntry. rewrite Hf. cbv zeta.
    rewrite (copyFields_range fields visit Hvisit).
    subst err entry. now destruct (format _). }
  split; [exact Hw|]. rewrite Hw.
  split; [now intros ->|]. split; [now intros msg handle -> ->|].
  split; [now intros msg -> ->|].
  intros Hnow. unfold uint64. apply Z.mod_small. lia.
Qed.

End JournalMockFacts.

(** * The fake client *)

Section FakeClientFacts.
Import FakeClient.
Variable Entry : Type.
Implicit Types (c : Client Entry) (tr : list (Event Entry)) (ev : Event Entry).
Implicit Types (stop : ptr Callback).

Lemma exec_app tr1 tr2 c0 :
  exec (tr1 ++ tr2) c0 =
  match exec tr1 c0 with
  | Some c1 => exec tr2 c1
  | None => None
  end.
Proof.
  revert c0. induction tr1 as [|ev tr1 IH]; intros c0; simpl; [reflexivity|].
  destruct (step c0 ev); auto.
Qed.

Lemma exec_snoc tr ev c0 c :
  exec (tr ++ [ev]) c0 = Some c <->
  exists c1, exec tr c0 = Some c1 /\ step c1 ev = Stepped c.
Proof.
  rewrite exec_app. destruct (exec tr c0) as [c1|]; simpl.
  - destruct (step c1 ev) as [c2| |msg] eqn:Hstep; split.
    + intros [= <-]. now exists c1.
    + intros (c1' & [= <-] & Heq). congruence.
    + discriminate.
    + intros (c1' & [= <-] & Heq). congruence.
    + discriminate.
    + intros (c1' & [= <-] & Heq). congruence.
  - split; [discriminate|]. now intros (c1 & Hc1 & _).
Qed.

Lemma sent_snoc tr ev :
  sent (tr ++ [ev]) = sent tr ++ match ev with Send e => [e] | _ => [] end.
Proof. unfold sent. rewrite flat_map_app. simpl. now rewrite app_nil_r. Qed.

Lemma noClear_snoc tr ev :
  noClear (tr ++ [ev]) <-> noClear tr /\ isClear ev = false.
Proof.
  unfold noClear. rewrite forallb_app. simpl.
  rewrite andb_true_iff, andb_true_r, negb_true_iff. tauto.
Qed.

Lemma occurs_snoc (p : Event Entry -> bool) tr ev :
  occurs p (tr ++ [ev]) <-> occurs p tr \/ p ev = true.
Proof.
  unfold occurs. rewrite existsb_app. simpl.
  rewrite orb_true_iff, orb_false_r. tauto.
Qed.

Lemma count_snoc (p : Event Entry -> bool) tr ev :
  length (List.filter p (tr ++ [ev]))
  = (length (List.filter p tr) + if p ev then 1 else 0)%nat.
Proof.
  rewrite List.filter_app, length_app. simpl. now destruct (p ev).
Qed.

Lemma invariant_New stop : invariant stop [] (@New Entry stop).
Proof.
  constructor; simpl; try reflexivity; try discriminate.
  exists []. now split.
Qed.

(** Every step of a run keeps the invariant. *)
Lemma invariant_step stop tr c ev c' :
  invariant stop tr c -> step c ev = Stepped c' ->
  invariant stop (tr ++ [ev]) c'.
Proof.
  intros [Hcb (dropped & Hsent & Hdrop) Honce Hclosed Hwg Hexited Hret Hstops
            Hcalls] Hstep.
  destruct c as [cl rc on w cb calls col st]. unfold held in *. simpl in *.
  destruct ev; simpl in Hstep.
  - (* Send *)
    destruct cl; [discriminate|]. destruct col; try discriminate.
    injection Hstep as <-.
    constructor; unfold held; simpl;
      rewrite ?sent_snoc, ?count_snoc, ?existsb_app, ?occurs_snoc; simpl;
      rewrite ?orb_false_r, ?Nat.add_0_r; try assumption; try discriminate.
    + exists dropped. rewrite Hsent, app_nil_r, <- app_assoc. split; [reflexivity|].
      intros Hnc. apply noClear_snoc in Hnc. tauto.
    + intros [Hr|]; [|discriminate]. now specialize (Hret Hr).
  - (* Collect *)
    destruct col; try discriminate. injection Hstep as <-.
    constructor; unfold held; simpl;
      rewrite ?sent_snoc, ?count_snoc, ?existsb_app, ?occurs_snoc; simpl;
      rewrite ?orb_false_r, ?Nat.add_0_r, ?app_nil_r;
      try assumption; try discriminate.
    + exists dropped. rewrite Hsent. split; [reflexivity|].
      intros Hnc. apply noClear_snoc in Hnc. tauto.
    + intros [Hr|]; [|discriminate]. now specialize (Hret Hr).
  - (* Exit *)
    destruct col; try discriminate. destruct cl; [|discriminate].
    injection Hstep as <-.
    constructor; unfold held; simpl;
      rewrite ?sent_snoc, ?count_snoc, ?existsb_app, ?occurs_snoc; simpl;
      rewrite ?orb_false_r, ?Nat.add_0_r, ?app_nil_r;
      try assumption; try reflexivity.
    + exists dropped. rewrite Hsent, app_nil_r. split; [reflexivity|].
      intros Hnc. apply noClear_snoc in Hnc. tauto.
    + now rewrite Hwg.
  - (* StopClose *)
    assert (Hstep' : c' = {| entries_closed := true; received := rc;
                             once := true; wg := w; OnStop := cb;
                             OnStop_calls := calls;
                             collector := col; stopping := S st |}).
    { destruct on; [|destruct cl; [discriminate|]];
        injection Hstep as <-; [now subst cl|reflexivity]. }
    subst c'.
    constructor; unfold held; simpl;
      rewrite ?sent_snoc, ?count_snoc, ?existsb_app, ?occurs_snoc; simpl;
      rewrite ?orb_true_r, ?orb_false_r, ?Nat.add_0_r, ?app_nil_r;
      try assumption; try reflexivity.
    + exists dropped. split; [assumption|].
      intros Hnc. apply noClear_snoc in Hnc. tauto.
    + intros [Hr|]; [|discriminate]. now specialize (Hret Hr).
    + lia.
  - (* StopReturn *)
    destruct st as [|n]; [discriminate|]. destruct w; [|discriminate].
    destruct cb as [callback|]; [|discriminate].
    destruct (callback calls); try discriminate.
    injection Hstep as <-.
    constructor; unfold held; simpl;
      rewrite ?sent_snoc, ?count_snoc, ?existsb_app, ?occurs_snoc; simpl;
      rewrite ?orb_false_r, ?Nat.add_0_r, ?app_nil_r;
      try assumption; try reflexivity.
    + exists dropped. split; [assumption|].
      intros Hnc. apply noClear_snoc in Hnc. tauto.
    + intros _. destruct col; [discriminate|discriminate|reflexivity].
    + lia.
    + lia.
  - (* Clear *)
    injection Hstep as <-.
    constructor; unfold held; simpl;
      rewrite ?sent_snoc, ?count_snoc, ?existsb_app, ?occurs_snoc; simpl;
      rewrite ?orb_false_r, ?Nat.add_0_r, ?app_nil_r;
      try assumption; try reflexivity.
    + exists (dropped ++ rc). rewrite Hsent, <- app_assoc.
      split; [reflexivity|].
      intros Hnc. apply noClear_snoc in Hnc. now destruct Hnc.
    + intros [Hr|]; [|discriminate]. now specialize (Hret Hr).
Qed.

(** The state at the end of a run from [New stop] satisfies the invariant. *)
Lemma exec_invariant stop tr :
  forall c, exec tr (New stop) = Some c -> invariant stop tr c.
Proof.
  induction tr as [|ev tr IH] using rev_ind; intros c Hrun.
  - injection Hrun as <-. apply invariant_New.
  - apply exec_snoc in Hrun as (c1 & Hc1 & Hstep).
    eapply invariant_step; eauto.
Qed.

Lemma counted_occurs (p : Event Entry -> bool) tr :
  (0 < length (List.filter p tr))%nat -> existsb p tr = true.
Proof.
  induction tr as [|ev tr IH]; simpl; [lia|].
  destruct (p ev); simpl; auto.
Qed.

(** Nothing is lost, invented, duplicated or reordered.  At the end of any
    run, what [Received] returns, followed by the one entry the goroutine
    may still hold, is a final segment of the entries sent, in their order;
    without a [Clear] in the run it is all of them. *)
Theorem Received_keeps_what_was_sent stop tr c :
  exec tr (New stop) = Some c ->
  exists dropped,
    sent tr = dropped ++ Received c ++ held c /\
    (length (held c) <= 1)%nat /\
    (noClear tr -> dropped = []).
Proof.
  intros Hrun. destruct (exec_invariant stop tr c Hrun) as [_ (dropped & Hs & Hd)].
  exists dropped. split; [exact Hs|]. split; [|exact Hd].
  unfold held. destruct (collector c); simpl; lia.
Qed.

(** Once a [Stop] call has returned, the goroutine has exited and, in a run
    without [Clear], [Received] returns exactly the entries sent, in their
    order. *)
Theorem Received_after_Stop_is_complete stop tr c :
  exec tr (New stop) = Some c ->
  occurs isStopReturn tr ->
  noClear tr ->
  collector c = Exited /\ Received c = sent tr.
Proof.
  intros Hrun Hret Hnc.
  destruct (exec_invariant stop tr c Hrun)
    as [_ (dropped & Hs & Hd) _ _ _ _ Hexit _ _].
  specialize (Hexit Hret). split; [assumption|].
  rewrite Hs, (Hd Hnc). unfold held. rewrite Hexit. simpl.
  now rewrite app_nil_r.
Qed.

(** [Stop] may be called again at any point of any run: its
    [once.Do(close)] neither panics nor blocks, it leaves the channel closed
    and does not touch the buffer or the goroutine. *)
Theorem Stop_can_be_repeated stop tr c :
  exec tr (New stop) = Some c ->
  exists c',
    step c StopClose = Stepped c' /\
    entries_closed c' = true /\
    Received c' = Received c /\
    collector c' = collector c /\
    stopping c' = S (stopping c).
Proof.
  intros Hrun.
  destruct (exec_invariant stop tr c Hrun) as [_ _ _ Hclosed _ _ _ _ _].
  destruct c as [cl rc on w cb calls col st]. simpl in *. subst cl.
  destruct on; eexists; (split; [reflexivity|]); repeat split.
Qed.

(** Once a [Stop] call has closed the channel no send completes any more:
    the rest of the run contains no send, and a send attempted at its end
    panics. *)
Theorem no_send_after_Stop stop tr1 tr2 c :
  exec (tr1 ++ StopClose :: tr2) (New stop) = Some c ->
  sent tr2 = [] /\
  forall e, step c (Send e) = Panics "send on closed channel".
Proof.
  revert c. induction tr2 as [|ev tr2 IH] using rev_ind; intros c Hrun.
  - split; [reflexivity|]. intros e.
    destruct (exec_invariant stop _ c Hrun) as [_ _ Honce Hclosed _ _ _ _ _].
    rewrite existsb_app in Honce. simpl in Honce.
    rewrite orb_true_r in Honce. simpl.
    now rewrite Hclosed, Honce.
  - change (tr1 ++ StopClose :: tr2 ++ [ev])
      with (tr1 ++ (StopClose :: tr2) ++ [ev]) in Hrun.
    rewrite app_assoc in Hrun.
    pose proof Hrun as Hrun'.
    apply exec_snoc in Hrun' as (c1 & Hc1 & Hstep).
    destruct (IH c1 Hc1) as [Hnone Hpanic].
    split.
    + rewrite sent_snoc, Hnone. destruct ev; try reflexivity.
      rewrite Hpanic in Hstep. discriminate.
    + intros e.
      destruct (exec_invariant stop _ c Hrun) as [_ _ Honce Hclosed _ _ _ _ _].
      rewrite !existsb_app in Honce. simpl in Honce.
      rewrite orb_true_r in Honce. simpl.
      now rewrite Hclosed, Honce.
Qed.

(** The wait of a [Stop] call is never stuck: after at most two steps of
    the goroutine (it appends the entry it holds, it leaves the loop) the
    wait group is at zero and [Received] includes the entry that was still
    held.  What the call does next is what its [c.OnStop()] does.  For a
    client made by [New(nil)] it panics.  Otherwise the call returns exactly
    when the callback returns, the buffer then being as it was when the
    wait ended; it panics when the callback panics and never returns when the
    callback never returns. *)
Theorem Stop_returns stop tr c :
  exec tr (New stop) = Some c ->
  (0 < stopping c)%nat ->
  exists ws c1,
    (length ws <= 2)%nat /\
    forallb isGoroutineStep ws = true /\
    exec ws c = Some c1 /\
    wg c1 = 0%nat /\
    collector c1 = Exited /\
    Received c1 = Received c ++ held c /\
    OnStop_calls c1 = OnStop_calls c /\
    match stop with
    | None =>
        step c1 StopReturn
        = Panics "invalid memory address or nil pointer dereference"
    | Some callback =>
        match callback (OnStop_calls c) with
        | CallbackReturns =>
            exists c',
              step c1 StopReturn = Stepped c' /\
              Received c' = Received c ++ held c /\
              OnStop_calls c' = S (OnStop_calls c) /\
              stopping c' = Nat.pred (stopping c)
        | CallbackPanics msg => step c1 StopReturn = Panics msg
        | CallbackBlocks => step c1 StopReturn = Blocked
        end
    end.
Proof.
  intros Hrun Hstop.
  destruct (exec_invariant stop tr c Hrun)
    as [Hcb _ Honce Hclosed Hwg _ _ Hstops _].
  assert (Hcl : entries_closed c = true).
  { rewrite Hclosed, Honce. apply counted_occurs. lia. }
  destruct c as [cl rc on w cb calls col st]. unfold held. simpl in *.
  subst cl w cb. destruct on; [|discriminate]. destruct st as [|n]; [lia|].
  destruct col as [|e|];
    [exists [Exit]|exists [Collect; Exit]|exists []];
    eexists;
    (split; [simpl; lia|]);
    (split; [reflexivity|]);
    (split; [reflexivity|]);
    simpl; rewrite ?app_nil_r;
    (split; [reflexivity|]);
    (split; [reflexivity|]);
    (split; [reflexivity|]);
    (split; [reflexivity|]);
    (destruct stop as [callback|]; [|reflexivity]);
    (destruct (callback calls); [|reflexivity|reflexivity]);
    eexists; repeat split.
Qed.

(** Between two calls of [Clear] the buffer only grows: whatever happens in
    a stretch of a run without [Clear], [Received] afterwards starts with
    what it returned before. *)
Theorem Received_only_grows stop tr1 tr2 c1 c2 :
  exec tr1 (New stop) = Some c1 ->
  exec tr2 c1 = Some c2 ->
  noClear tr2 ->
  exists more, Received c2 = Received c1 ++ more.
Proof.
  intros _. revert c1. unfold Received.
  induction tr2 as [|ev tr2 IH]; intros c1 Hrun Hnc.
  - injection Hrun as <-. exists []. now rewrite app_nil_r.
  - simpl in Hrun. unfold noClear in Hnc. simpl in Hnc.
    apply andb_true_iff in Hnc as [Hev Hnc].
    destruct (step c1 ev) as [c'| |msg] eqn:Hstep; try discriminate.
    destruct (IH c' Hrun Hnc) as (more & Hmore).
    assert (Hone : exists l, received c' = received c1 ++ l).
    { destruct c1 as [cl rc on w cb calls col st].
      destruct ev; simpl in Hstep, Hev; try discriminate.
      - destruct cl; [discriminate|]. destruct col; try discriminate.
        injection Hstep as <-. exists []. simpl. now rewrite app_nil_r.
      - destruct col; try discriminate.
        injection Hstep as <-. now eexists.
      - destruct col; try discriminate. destruct cl; [|discriminate].
        injection Hstep as <-. exists []. simpl. now rewrite app_nil_r.
      - exists []. rewrite app_nil_r.
        destruct on; [|destruct cl; [discriminate|]];
          now injection Hstep as <-.
      - destruct st; [discriminate|]. destruct w; [|discriminate].
        destruct cb as [callback|]; [|discriminate].
        destruct (callback calls); try discriminate.
        injection Hstep as <-. exists []. simpl. now rewrite app_nil_r. }
    destruct Hone as (l & Hl). exists (l ++ more).
    now rewrite Hmore, Hl, <- app_assoc.
Qed.

(** Until the first [Stop] the goroutine is alive and a send never panics:
    it completes at once, or as soon as the goroutine has appended the entry
    it holds. *)
Theorem send_completes_before_Stop stop tr c e :
  exec tr (New stop) = Some c ->
  ~ occurs isStopClose tr ->
  collector c <> Exited /\
  ((exists c', step c (Send e) = Stepped c') \/
   (step c (Send e) = Blocked /\
    exists c1 c2,
      step c Collect = Stepped c1 /\ step c1 (Send e) = Stepped c2)).
Proof.
  intros Hrun Hno.
  destruct (exec_invariant stop tr c Hrun) as [_ _ Honce Hclosed _ Hexited _ _ _].
  unfold occurs in Hno. apply not_true_is_false in Hno.
  rewrite Hno in Honce. rewrite Honce in Hclosed.
  destruct c as [cl rc on w cb calls col st]. simpl in *. subst cl.
  destruct col as [|held_entry|].
  - split; [discriminate|]. left. now eexists.
  - split; [discriminate|]. right. split; [reflexivity|].
    do 2 eexists. split; reflexivity.
  - now specialize (Hexited eq_refl).
Qed.

End FakeClientFacts.

(** * The mock reader and the fake client at the sample inputs *)

(** The sample fields, visited in the opposite order of their listing, with
    a test handle that logs the failures reported on it. *)
Lemma Write_formats_the_given_fields_witness :
  JournalMock.Write (list string) (fun log msg => msg :: log) sampleReader
    (reverse samplePairs) 1700000000
  = Returned nilptr.
Proof.
  assert (Hrange : rangeOver sampleFields (reverse samplePairs)).
  { change (reverse samplePairs
            ≡ₚ map_to_list (list_to_map samplePairs : gmap string string)).
    rewrite reverse_Permutation. symmetry. apply map_to_list_to_map.
    apply (bool_decide_unpack _). vm_compute. exact I. }
  apply (proj1 (proj2 (Write_formats_the_given_fields (list string)
                         (fun log msg => msg :: log) sampleReader
                         sampleFields (reverse samplePairs) 1700000000
                         sampleFormatter eq_refl Hrange))).
  vm_compute. reflexivity.
Defined.

Lemma sampleRun_states :
  FakeClient.exec (firstn 2 sampleRun) (FakeClient.New sampleStop)
  = Some sampleState2 /\
  FakeClient.exec (firstn 3 sampleRun) (FakeClient.New sampleStop)
  = Some sampleState3 /\
  FakeClient.exec (firstn 4 sampleRun) (FakeClient.New sampleStop)
  = Some sampleState4 /\
  FakeClient.exec (firstn 5 sampleRun) (FakeClient.New sampleStop)
  = Some sampleState5 /\
  FakeClient.exec sampleRun (FakeClient.New sampleStop)
  = Some sampleState7 /\
  FakeClient.exec (skipn 2 sampleRun) sampleState2 = Some sampleState7.
Proof. repeat split; vm_compute; reflexivity. Defined.

Lemma Received_keeps_what_was_sent_witness :
  exists c dropped,
    FakeClient.exec (firstn 5 sampleRun)
      (FakeClient.New sampleStop) = Some c /\
    FakeClient.sent (firstn 5 sampleRun)
    = dropped ++ FakeClient.Received c ++ FakeClient.held c.
Proof.
  destruct sampleRun_states as (_ & _ & _ & Hrun & _).
  exists sampleState5.
  destruct (Received_keeps_what_was_sent nat sampleStop (firstn 5 sampleRun)
              sampleState5 Hrun) as (dropped & Hsent & _).
  exists dropped. split; [exact Hrun|exact Hsent].
Defined.

Lemma Received_after_Stop_is_complete_witness :
  exists c,
    FakeClient.exec sampleRun
      (FakeClient.New sampleStop) = Some c /\
    FakeClient.Received c = [1; 2]%nat.
Proof.
  destruct sampleRun_states as (_ & _ & _ & _ & Hrun & _).
  exists sampleState7. split; [exact Hrun|].
  apply (Received_after_Stop_is_complete nat sampleStop sampleRun
           sampleState7 Hrun); vm_compute; reflexivity.
Defined.

Lemma Stop_can_be_repeated_witness :
  exists c c',
    FakeClient.exec sampleRun
      (FakeClient.New sampleStop) = Some c /\
    FakeClient.step c FakeClient.StopClose = FakeClient.Stepped c'.
Proof.
  destruct sampleRun_states as (_ & _ & _ & _ & Hrun & _).
  exists sampleState7.
  destruct (Stop_can_be_repeated nat sampleStop sampleRun sampleState7 Hrun)
    as (c' & Hstep & _).
  exists c'. split; [exact Hrun|exact Hstep].
Defined.

Lemma no_send_after_Stop_witness :
  FakeClient.sent (skipn 4 sampleRun) = [].
Proof.
  destruct sampleRun_states as (_ & _ & _ & _ & Hrun & _).
  apply (no_send_after_Stop nat sampleStop (firstn 3 sampleRun)
           (skipn 4 sampleRun) sampleState7 Hrun).
Defined.

(** A [Stop] call made while the goroutine holds the second entry: the
    goroutine appends it and exits, the callback returns, the call returns. *)
Lemma Stop_returns_witness :
  exists c ws c1 c',
    FakeClient.exec (firstn 4 sampleRun) (FakeClient.New sampleStop)
    = Some c /\
    FakeClient.exec ws c = Some c1 /\
    FakeClient.step c1 FakeClient.StopReturn = FakeClient.Stepped c' /\
    FakeClient.Received c' = [1; 2]%nat.
Proof.
  destruct sampleRun_states as (_ & _ & Hrun & _).
  exists sampleState4.
  destruct (Stop_returns nat sampleStop (firstn 4 sampleRun) sampleState4
              Hrun)
    as (ws & c1 & _ & _ & Hws & _ & _ & _ & _ & c' & Hstep & Hrec & _).
  - vm_compute. lia.
  - exists ws, c1, c'. split; [exact Hrun|].
    split; [exact Hws|]. split; [exact Hstep|exact Hrec].
Defined.

(** The same call on a client made by [New(nil)]: the wait ends and the
    call of the nil callback panics. *)
Example Stop_with_nil_callback_panics :
  exists c,
    FakeClient.exec [FakeClient.Send 1%nat; FakeClient.Collect;
                     FakeClient.StopClose; FakeClient.Exit]
      (FakeClient.New nilptr) = Some c /\
    FakeClient.step c FakeClient.StopReturn
    = FakeClient.Panics "invalid memory address or nil pointer dereference".
Proof. eexists. split; vm_compute; reflexivity. Qed.

Lemma Received_only_grows_witness :
  exists c1 c2 more,
    FakeClient.exec (firstn 2 sampleRun)
      (FakeClient.New sampleStop) = Some c1 /\
    FakeClient.exec (skipn 2 sampleRun) c1 = Some c2 /\
    FakeClient.Received c2 = FakeClient.Received c1 ++ more.
Proof.
  destruct sampleRun_states as (Hrun1 & _ & _ & _ & _ & Hrun2).
  exists sampleState2, sampleState7.
  destruct (Received_only_grows nat sampleStop (firstn 2 sampleRun)
              (skipn 2 sampleRun) sampleState2 sampleState7 Hrun1 Hrun2
              eq_refl) as (more & Hmore).
  exists more. split; [exact Hrun1|]. split; [exact Hrun2|exact Hmore].
Defined.

Lemma send_completes_before_Stop_witness :
  exists c,
    FakeClient.exec (firstn 3 sampleRun)
      (FakeClient.New sampleStop) = Some c /\
    FakeClient.collector c <> FakeClient.Exited.
Proof.
  destruct sampleRun_states as (_ & Hrun & _).
  exists sampleState3. split; [exact Hrun|].
  apply (send_completes_before_Stop nat sampleStop (firstn 3 sampleRun)
           sampleState3 3%nat Hrun).
  unfold FakeClient.occurs. simpl. discriminate.
Defined.
